(** * Command result processing of the MEGA client engine (src/src/commands.cpp)

    A shallow embedding of the [procresult] bodies of a selection of commands,
    of the JSON cursor they share, and of the [Result] view over one slot of
    the response array.  Each [procresult] is a function from the command's
    fields, the read-only part of the client, the [Result] and the cursor to
    the returned boolean, the cursor after the call, the client fields it
    assigns and the list of calls it makes into collaborators (completions,
    transfer slots, the node tree, the account state). *)

From Stdlib Require Import ZArith List String Ascii Bool Lia.
Import ListNotations.
Open Scope Z_scope.
Set Warnings "-register-all".

(** ** Error codes (types.h) *)

Definition error := Z.
Definition API_OK : error := 0.
Definition API_EINTERNAL : error := -1.
Definition API_EARGS : error := -2.
Definition API_EAGAIN : error := -3.
Definition API_ENOENT : error := -9.
Definition API_EACCESS : error := -11.
Definition API_EOVERQUOTA : error := -17.

(** ** Name identifiers: [getnameid] packs the key's characters, 8 bits each *)

Definition nameid := Z.
Definition EOO : nameid := 0.
Definition MAKENAMEID2 (a b : Z) : nameid := Z.shiftl a 8 + b.
Definition ch_f : Z := 102.
Definition ch_i : Z := 105.
Definition ch_p : Z := 112.
Definition ch_r : Z := 114.
Definition ch_s : Z := 115.
Definition ch_v : Z := 118.
Definition ch_2 : Z := 50.
Definition NAME_ip : nameid := MAKENAMEID2 ch_i ch_p.
Definition NAME_f2 : nameid := MAKENAMEID2 ch_f ch_2.

(** ** JSON values of a response slot *)

(** [JBad] is text the scanner cannot skip (a truncated or malformed value).
    [JStr t] is a string, [t] its text between the quotes (holding no quote
    character); [JNum z] a number in the range of a 64-bit integer. *)
Inductive jval : Type :=
| JNum (z : Z)
| JStr (s : string)
| JArr (l : list jval)
| JObj (l : list (nameid * jval))
| JBad.

Definition member : Type := (nameid * jval)%type.

(** The key [getnameid] packs from a string's text: [id = (id << 8) + c]
    over its characters, in a 64-bit [nameid]. *)
Fixpoint text_nameid_from (id : Z) (t : string) : nameid :=
  match t with
  | EmptyString => id
  | String c t' => text_nameid_from ((Z.shiftl id 8 + Z.of_nat (nat_of_ascii c)) mod 2 ^ 64) t'
  end.

Definition text_nameid (t : string) : nameid := text_nameid_from 0 t.

(** The text of a key: the bytes of its identifier, the first character in
    the most significant byte (at most 8 of them). *)
Fixpoint name_bytes (fuel : nat) (k : Z) (acc : string) : string :=
  match fuel with
  | O => acc
  | S f =>
      if Z.leb k 0 then acc
      else name_bytes f (Z.shiftr k 8) (String (ascii_of_nat (Z.to_nat (k mod 256))) acc)
  end.

Definition name_text (k : nameid) : string := name_bytes 8 k EmptyString.

Fixpoint wellformed (v : jval) : bool :=
  match v with
  | JNum _ | JStr _ => true
  | JArr l => forallb wellformed l
  | JObj l => forallb (fun kv => wellformed (snd kv)) l
  | JBad => false
  end.

(** ** The cursor inside one slot.
    [pending] is a value whose key [getnameid] has consumed but which nobody
    has read yet; [rest] are the members still ahead of the cursor.  A slot
    is fully consumed when nothing is pending and no member is left: the
    cursor is at the slot boundary (the closing brace).  A pending string is
    the next text [getnameid] reads as a key (see the loop below).  The
    elements an array reader leaves unread after a failed [leavearray()]
    are kept pending as an array; [getnameid] then yields [EOO] as at an
    array, which is what it does unless the first of them is a string. *)

Record cursor : Type := mkcursor { pending : option jval; rest : list member }.

Definition positioned (c : cursor) : bool :=
  match pending c, rest c with
  | None, [] => true
  | _, _ => false
  end.

(** One response slot, as the transport delivers it. *)
Inductive slot : Type :=
| SCode (e : Z)
| SObject (ms : list member)
| SArray (l : list jval)
| SItem (v : jval).

Definition slot_wellformed (s : slot) : bool :=
  match s with
  | SCode _ => true
  | SObject ms => forallb (fun kv => wellformed (snd kv)) ms
  | SArray l => forallb wellformed l
  | SItem v => wellformed v
  end.

(** The cursor the dispatcher hands to [procresult]: a bare code has been read
    already, an object has been entered, an array's elements and an item are
    still unread. *)
Definition cursor_of_slot (s : slot) : cursor :=
  match s with
  | SCode _ => mkcursor None []
  | SObject ms => mkcursor None ms
  | SArray [] => mkcursor None []
  | SArray l => mkcursor (Some (JArr l)) []
  | SItem v => mkcursor (Some v) []
  end.

(** ** The [Result] view (command.h).
    Modelled from the spec: the [Result] class is not part of
    src/src/commands.cpp.  Section 3 describes it as a tagged union over a bare
    status code, a JSON object, a JSON array or a scalar value; section 4.3
    gives the queries: [wasErrorOrOK] for a bare integer, [wasError e],
    [wasStrictlyError] excluding the OK case, [hasJsonObject] and
    [hasJsonArray] for a slot opening with a brace or a bracket, and
    [errorOrOK] giving the slot's code as an error kind, objects and arrays
    counting as success.  [hasJsonItem] is the query the commands use for the
    scalar case (commands.cpp line 8703). *)
Inductive Result : Type :=
| CmdError (e : error)
| CmdObject
| CmdArray
| CmdItem.

Definition result_of_slot (s : slot) : Result :=
  match s with
  | SCode e => CmdError e
  | SObject _ => CmdObject
  | SArray _ => CmdArray
  | SItem _ => CmdItem
  end.

Definition wasErrorOrOK (r : Result) : bool :=
  match r with CmdError _ => true | _ => false end.
Definition hasJsonObject (r : Result) : bool :=
  match r with CmdObject => true | _ => false end.
Definition hasJsonArray (r : Result) : bool :=
  match r with CmdArray => true | _ => false end.
Definition hasJsonItem (r : Result) : bool :=
  match r with CmdItem => true | _ => false end.
Definition wasError (r : Result) (e : error) : bool :=
  match r with CmdError e' => Z.eqb e' e | _ => false end.
Definition wasStrictlyError (r : Result) : bool :=
  match r with CmdError e => Z.ltb e 0 | _ => false end.
Definition errorOrOK (r : Result) : error :=
  match r with CmdError e => e | _ => API_OK end.

(** ** Calls a [procresult] makes into its collaborators *)

Definition handle := Z.

(** [syncdel_t] (types.h) *)
Inductive syncdel_t : Type :=
| SYNCDEL_NONE | SYNCDEL_DELETED | SYNCDEL_INFLIGHT | SYNCDEL_BIN
| SYNCDEL_DEBRIS | SYNCDEL_DEBRISDAY | SYNCDEL_FAILED.

Definition syncdel_eqb (a b : syncdel_t) : bool :=
  match a, b with
  | SYNCDEL_NONE, SYNCDEL_NONE | SYNCDEL_DELETED, SYNCDEL_DELETED
  | SYNCDEL_INFLIGHT, SYNCDEL_INFLIGHT | SYNCDEL_BIN, SYNCDEL_BIN
  | SYNCDEL_DEBRIS, SYNCDEL_DEBRIS | SYNCDEL_DEBRISDAY, SYNCDEL_DEBRISDAY
  | SYNCDEL_FAILED, SYNCDEL_FAILED => true
  | _, _ => false
  end.

(** [putsource_t] *)
Inductive putsource_t : Type := PUTNODES_APP | PUTNODES_SYNC | PUTNODES_SYNCDEBRIS.

Inductive reqstatus : Type := REQ_SUCCESS | REQ_FAILURE.

Inductive effect : Type :=
| Completion (e : error)          (* the caller's completion closure, or the app callback standing for it *)
| TransferFailed (e : error)      (* tslot->transfer->failed(e) *)
| TransferStart                   (* tslot receives its URLs and starts *)
| ClearPendingCmd                 (* tslot->pendingcmd = NULL *)
| NullDeref                       (* a dereference of a cleared back-reference *)
| CacheResolvedUrls
| ActivateOverquota               (* client->activateoverquota(0, false) *)
| DisableSync (h : handle)        (* client->disableSyncContainingNode *)
| SendEvent (n : Z)
| SetStatus (st : reqstatus)      (* status = REQ_... of an HttpReq command *)
| SetFaAttr                       (* client->setattr(n, 'f' = me) *)
| RemovePendingRecords            (* removePendingDBRecordsAndTempFiles *)
| ApplyNodes (v : jval)           (* client->readnodes applying nodes to the node tree *)
| SendKeyRewrites
| SyncdownRequired
| SyncResult (e : error)          (* client->putnodes_sync_result *)
| SyncDebrisResult (e : error)    (* client->putnodes_syncdebris_result *)
| MarkSyncDeleted (n : handle) (sd : syncdel_t)  (* toDebrisNode->syncdeleted = sd *)
| DropToDebris (n : handle)       (* syncdeleted = NONE and erased from toDebris *)
| IssueMove (n t : handle) (sd : syncdel_t)      (* client->rename: a new move command *)
| SetAccount (v : Z) (salt : string)             (* accountversion and accountsalt *)
| LocalLogout (keep : bool).      (* client->locallogout(true, keep) *)

(** Effects that change the node tree: only [readnodes] does, among the calls
    of the modelled bodies. *)
Definition tree_mutation (x : effect) : bool :=
  match x with ApplyNodes _ => true | _ => false end.

Definition is_completion (x : effect) : bool :=
  match x with Completion _ => true | _ => false end.

Definition completions (l : list effect) : list effect := filter is_completion l.

(** ** The client fields the modelled bodies read or assign *)

Record client : Type := mkclient {
  loggingout : Z;
  mOnCSCompletion : option (list effect);   (* the closure run after the CS batch, as the calls it makes *)
  private_nodes : list handle;              (* isPrivateNode *)
  nodes : list (handle * option handle);    (* nodeByHandle, with each node's parent *)
  synced_nodes : list handle;               (* nodes with a localnode *)
  toDebris : list handle;
  rubbish : option handle                   (* rootnodes.rubbish, when that node exists *)
}.

Definition set_loggingout (cl : client) (n : Z) : client :=
  mkclient n (mOnCSCompletion cl) (private_nodes cl) (nodes cl) (synced_nodes cl)
           (toDebris cl) (rubbish cl).

Definition set_onCS (cl : client) (f : option (list effect)) : client :=
  mkclient (loggingout cl) f (private_nodes cl) (nodes cl) (synced_nodes cl)
           (toDebris cl) (rubbish cl).

Definition memZ (x : Z) (l : list Z) : bool := existsb (Z.eqb x) l.

Definition nodeByHandle (cl : client) (h : handle) : option (option handle) :=
  option_map snd (find (fun p => Z.eqb (fst p) h) (nodes cl)).

(** ** The [for (;;) switch (client->json.getnameid())] loop.
    [getnameid] skips a ',' or ':' and, at a string, reads it up to its
    closing quote as the key and moves past it; at anything else (a number,
    an array, an object, the closing brace) it yields [EOO] without moving.
    The readers a case calls skip a ',' or ':' too, so the text after a key
    is read as that key's value, and the text after a value as the next
    member's key string.

    In step with the members, [getnameid] reads a member's key and leaves
    its value pending; a case reads the value (nothing left pending), leaves
    part of it unread, or returns.  A string left unread is read as the next
    key, and the members fall out of step: the case for that key is handed
    the next member's key string (or, at the end of the object, the closing
    brace, which no reader accepts, as [JBad]); once that string is read the
    next member's value is pending; if it is left unread, [getnameid] reads
    it and the members are back in step. *)

Section ObjLoop.
Context {S : Type}.

Inductive step : Type :=
| Next (s : S) (left : option jval)
| Stop (s : S) (left : option jval).

Variable case : S -> nameid -> jval -> step.
Variable at_eoo : S -> S.

(** The loop from a cursor whose pending value is [p] and whose members
    ahead are [ms]. *)
Fixpoint obj_loop (s : S) (p : option jval) (ms : list member) {struct ms}
    : S * cursor :=
  match p, ms with
  | None, [] => (at_eoo s, mkcursor None [])
  | None, (k, v) :: ms' =>
      if Z.eqb k EOO then (at_eoo s, mkcursor (Some v) ms')
      else match case s k v with
           | Next s' lft => obj_loop s' lft ms'
           | Stop s' lft => (s', mkcursor lft ms')
           end
  | Some (JStr t), _ =>
      let k := text_nameid t in
      if Z.eqb k EOO then (at_eoo s, mkcursor None ms)
      else match ms with
           | [] =>
               match case s k JBad with
               | Next s' _ => (at_eoo s', mkcursor None [])
               | Stop s' _ => (s', mkcursor None [])
               end
           | (k2, v2) :: ms' =>
               match case s k (JStr (name_text k2)) with
               | Next s' None => obj_loop s' (Some v2) ms'
               | Next s' (Some _) =>
                   (* the key string left unread: read as the key it is *)
                   if Z.eqb k2 EOO then (at_eoo s', mkcursor (Some v2) ms')
                   else match case s' k2 v2 with
                        | Next s'' lft => obj_loop s'' lft ms'
                        | Stop s'' lft => (s'', mkcursor lft ms')
                        end
               | Stop s' None => (s', mkcursor (Some v2) ms')
               | Stop s' (Some _) => (s', mkcursor None ms)
               end
           end
  | Some pv, _ => (at_eoo s, mkcursor (Some pv) ms)
  end.

Definition run_obj (s : S) (c : cursor) : S * cursor :=
  obj_loop s (pending c) (rest c).

End ObjLoop.

Arguments step : clear implicits.

(** [storeobject]: skips (or copies) one value; fails on text it cannot skip. *)
Definition storeobject (v : jval) : option jval :=
  if wellformed v then None else Some v.

(** [loadIpsFromJson] (command.cpp): reads an array holding one array of IP
    strings per URL; anything else is left unread. *)
Definition loadIpsFromJson (v : jval) : option jval :=
  match v with
  | JArr l =>
      if forallb (fun x => match x with JArr ys => forallb wellformed ys | _ => false end) l
      then None else Some v
  | _ => Some v
  end.

(** [isdigit] of the C library in the "C" locale. *)
Definition isdigit (c : ascii) : bool :=
  Nat.leb 48 (nat_of_ascii c) && Nat.leb (nat_of_ascii c) 57.

(** [atoll] on the text from [ptr]: an optional '-', then the leading digits
    (a string's text ends at its closing quote, which stops the digits).
    Within the range of [long long]; outside it [atoll] is undefined. *)
Fixpoint digits_value (s : string) (acc : Z) : Z :=
  match s with
  | String c s' =>
      if isdigit c then digits_value s' (acc * 10 + (Z.of_nat (nat_of_ascii c) - 48))
      else acc
  | EmptyString => acc
  end.

Definition atoll (s : string) : Z :=
  match s with
  | String c s' => if Ascii.eqb c "-"%char then - digits_value s' 0 else digits_value s 0
  | EmptyString => 0
  end.

(** [JSON::getint]: past an opening quote, text starting with a digit or a
    '-' is read by [atoll] and the value is skipped with [storeobject];
    anything else yields -1 and is left unread.  [JStr s] holds the raw text
    between the quotes; [JBad] is text that neither starts a number nor can
    be skipped. *)
Definition getint (v : jval) : Z * option jval :=
  match v with
  | JNum z => (z, None)
  | JStr (String c _ as s) =>
      if isdigit c || Ascii.eqb c "-"%char then (atoll s, None) else (-1, Some v)
  | _ => (-1, Some v)
  end.

(** Conversions of a 64-bit value to a 32-bit [unsigned] ([dstime]) and to
    an [int]: the value modulo 2^32, in the target's range. *)
Definition to_uint32 (z : Z) : Z := z mod 2 ^ 32.
Definition to_int32 (z : Z) : Z := (z + 2 ^ 31) mod 2 ^ 32 - 2 ^ 31.

(** ** The modelled commands *)

(** A command's fields read by its [procresult]; [canceled] is the flag of
    the [Command] base class, which every command has. *)
Inductive kind : Type :=
| PutFile (tslot : bool)                      (* CommandPutFile: is [tslot] still set *)
| GetPutUrl                                   (* CommandGetPutUrl *)
| SetAttr (has_completion : bool)             (* CommandSetAttr *)
| PutNodes (targethandle : option handle) (source : putsource_t)  (* CommandPutNodes; None for a user target *)
| MoveNode (h : handle) (syncdel : syncdel_t) (pp : option handle)
           (has_completion : bool)            (* CommandMoveNode *)
| DelNode                                     (* CommandDelNode *)
| Logout (keepSyncConfigsFile : bool)         (* CommandLogout *)
| Prelogin.                                   (* CommandPrelogin *)

Record command : Type := mkcommand { canceled : bool; ckind : kind }.

(** What a [procresult] call yields: its return value, the cursor it leaves,
    the client afterwards and the calls it made, in order. *)
Definition outcome : Type := (bool * cursor * client * list effect)%type.

Definition ret_of (o : outcome) : bool := let '(b, _, _, _) := o in b.
Definition cur_of (o : outcome) : cursor := let '(_, c, _, _) := o in c.
Definition client_of (o : outcome) : client := let '(_, _, cl, _) := o in cl.
Definition effects_of (o : outcome) : list effect := let '(_, _, _, l) := o in l.

(** *** CommandSetAttr::procresult *)
Definition CommandSetAttr_procresult (has_completion : bool) (cl : client)
    (r : Result) (c : cursor) : outcome :=
  (wasErrorOrOK r, c, cl,
   if has_completion then [Completion (errorOrOK r)] else []).

(** *** CommandDelNode::procresult
    Loop state: the error read from ["r"], and the return value with the
    calls made once the loop has returned. *)
Definition delnode_state : Type := (error * option (bool * list effect))%type.

Definition delnode_case (s : delnode_state) (k : nameid) (v : jval)
    : step delnode_state :=
  let '(e, _) := s in
  if Z.eqb k ch_r then
    (* if (enterarray()) { if (isnumeric()) e = (error)getint(); leavearray(); };
       [error] is an [int]-sized enum; the elements after the first are
       left unread when [leavearray()] fails *)
    match v with
    | JArr [] => Next (e, None) None
    | JArr [JNum z] => Next (to_int32 z, None) None
    | JArr (JNum z :: t) => Next (to_int32 z, None) (Some (JArr t))
    | JArr l => Next (e, None) (Some (JArr l))
    | _ => Next (e, None) (Some v)
    end
  else
    match storeobject v with
    | None => Next (e, None) None
    | Some pv => Stop (e, Some (false, [Completion API_EINTERNAL])) (Some pv)
    end.

Definition delnode_eoo (s : delnode_state) : delnode_state :=
  let '(e, _) := s in (e, Some (true, [Completion e])).

Definition CommandDelNode_procresult (cl : client) (r : Result) (c : cursor)
    : outcome :=
  if wasErrorOrOK r then (true, c, cl, [Completion (errorOrOK r)])
  else
    let '((_, fin), c') := run_obj delnode_case delnode_eoo (API_OK, None) c in
    match fin with
    | Some (b, effs) => (b, c', cl, effs)
    | None => (true, c', cl, [])
    end.

(** *** CommandLogout::procresult
    On API_OK the teardown and the completion are stored in
    [mOnCSCompletion]; they run once the CS batch has been processed. *)
Definition CommandLogout_procresult (keep : bool) (cl : client) (r : Result)
    (c : cursor) : outcome :=
  let cl1 := if Z.ltb 0 (loggingout cl)
             then set_loggingout cl (loggingout cl - 1) else cl in
  if wasError r API_OK
  then (true, c, set_onCS cl1 (Some [LocalLogout keep; Completion API_OK]), [])
  else (true, c, cl1, [Completion (errorOrOK r)]).

(** *** CommandPrelogin::procresult
    Loop state: [v], [salt] and the return value with the calls made. *)
Definition prelogin_state : Type := (Z * string * option (bool * list effect))%type.

(** [storeobject(&salt)] copies a string's contents, or the raw text of any
    other value, which is never empty. *)
Definition stored_text (v : jval) : string :=
  match v with JStr s => s | _ => "?" end.

Definition prelogin_case (s : prelogin_state) (k : nameid) (v : jval)
    : step prelogin_state :=
  let '(ver, salt, _) := s in
  if Z.eqb k ch_v then
    (* v = int(getint()) *)
    let '(z, lft) := getint v in Next (to_int32 z, salt, None) lft
  else if Z.eqb k ch_s then
    match storeobject v with
    | None => Next (ver, stored_text v, None) None
    | Some pv => Next (ver, salt, None) (Some pv)
    end
  else
    match storeobject v with
    | None => Next (ver, salt, None) None
    | Some pv => Stop (ver, salt, Some (false, [Completion API_EINTERNAL])) (Some pv)
    end.

Definition prelogin_eoo (s : prelogin_state) : prelogin_state :=
  let '(ver, salt, _) := s in
  let effs :=
    if Z.eqb ver 0 then [Completion API_EINTERNAL]
    else if Z.ltb 2 ver then [Completion API_EINTERNAL]
    else if Z.eqb ver 2 && String.eqb salt "" then [Completion API_EINTERNAL]
    else [SetAccount ver salt; Completion API_OK] in
  (ver, salt, Some (true, effs)).

Definition CommandPrelogin_procresult (cl : client) (r : Result) (c : cursor)
    : outcome :=
  if wasErrorOrOK r then (true, c, cl, [Completion (errorOrOK r)])
  else
    let '((_, _, fin), c') := run_obj prelogin_case prelogin_eoo (0, ""%string, None) c in
    match fin with
    | Some (b, effs) => (b, c', cl, effs)
    | None => (true, c', cl, [])
    end.

(** *** CommandGetPutUrl::procresult
    Loop state: whether ["p"] was stored, and the final return. *)
Definition getputurl_state : Type := option (bool * list effect).

Definition getputurl_case (canceled : bool) (s : getputurl_state) (k : nameid)
    (v : jval) : step getputurl_state :=
  if Z.eqb k ch_p then
    (* storeobject(canceled ? nullptr : &url): a failure is not checked *)
    Next None (storeobject v)
  else if Z.eqb k NAME_ip then
    Next None (loadIpsFromJson v)
  else
    match storeobject v with
    | None => Next None None
    | Some pv =>
        Stop (Some (false, if canceled then [] else [Completion API_EINTERNAL])) (Some pv)
    end.

Definition getputurl_eoo (canceled : bool) (s : getputurl_state) : getputurl_state :=
  Some (true, if canceled then [] else [Completion API_OK]).

Definition CommandGetPutUrl_procresult (canceled : bool) (cl : client)
    (r : Result) (c : cursor) : outcome :=
  if wasErrorOrOK r then
    (true, c, cl, if canceled then [] else [Completion (errorOrOK r)])
  else
    let '(fin, c') := run_obj (getputurl_case canceled) (getputurl_eoo canceled) None c in
    match fin with
    | Some (b, effs) => (b, c', cl, effs)
    | None => (true, c', cl, [])
    end.

(** *** CommandPutFile::procresult
    [tslot] is the back-reference that [CommandPutFile::cancel] clears; a
    call through it while it is cleared is a [NullDeref]. *)
Definition via_tslot (tslot : bool) (x : effect) : effect :=
  if tslot then x else NullDeref.

(** Loop state: the number of URLs in [tempurls], and the final return. *)
Definition putfile_state : Type := (nat * option (bool * list effect))%type.

Definition putfile_case (tslot canceled : bool) (s : putfile_state) (k : nameid)
    (v : jval) : step putfile_state :=
  let '(n, _) := s in
  if Z.eqb k ch_p then
    (* tempurls.push_back(""); storeobject(canceled ? NULL : &tempurls.back()) *)
    Next (S n, None) (storeobject v)
  else if Z.eqb k NAME_ip then
    Next (n, None) (loadIpsFromJson v)
  else
    match storeobject v with
    | None => Next (n, None) None
    | Some pv =>
        Stop (n, Some (false,
                if canceled then [] else [via_tslot tslot (TransferFailed API_EINTERNAL)]))
             (Some pv)
    end.

Definition putfile_eoo (tslot canceled : bool) (s : putfile_state) : putfile_state :=
  let '(n, _) := s in
  if canceled then (n, Some (true, []))
  else if Nat.eqb n 1 then (n, Some (true, [CacheResolvedUrls; via_tslot tslot TransferStart]))
  else (n, Some (true, [via_tslot tslot (TransferFailed API_EINTERNAL)])).

Definition CommandPutFile_procresult (tslot canceled0 : bool) (cl : client)
    (r : Result) (c : cursor) : outcome :=
  (* if (tslot) tslot->pendingcmd = NULL; else canceled = true; *)
  let pre := if tslot then [ClearPendingCmd] else [] in
  let canceled := if tslot then canceled0 else true in
  if wasErrorOrOK r then
    (true, c, cl, pre ++ (if canceled then [] else [via_tslot tslot (TransferFailed (errorOrOK r))]))
  else
    let '((_, fin), c') :=
      run_obj (putfile_case tslot canceled) (putfile_eoo tslot canceled) (O, None) c in
    match fin with
    | Some (b, effs) => (b, c', cl, pre ++ effs)
    | None => (true, c', cl, pre)
    end.

(** *** CommandMoveNode::procresult
    [ENABLE_SYNC] selects the build with the sync engine. *)

(** The [do { ... } while ((n = n->parent))] walk: is [target] [n] or one of
    its ancestors.  A tree of [nodes cl] nodes has no longer chain. *)
Fixpoint under (fuel : nat) (cl : client) (n target : handle) : bool :=
  match fuel with
  | O => false
  | S f =>
      Z.eqb n target ||
      match nodeByHandle cl n with
      | Some (Some p) => under f cl p target
      | _ => false
      end
  end.

Definition movenode_sync (cl : client) (h : handle) (syncdel : syncdel_t)
    (r : Result) : list effect :=
  if syncdel_eqb syncdel SYNCDEL_NONE then []      (* the [syncop] branch only logs *)
  else
    match nodeByHandle cl h with
    | None => []
    | Some _ =>
        if wasError r API_OK then
          flat_map (fun n => if under (S (List.length (nodes cl))) cl n h
                             then [MarkSyncDeleted n syncdel] else [])
                   (toDebris cl)
        else
          match rubbish cl with
          | Some tn =>
              if syncdel_eqb syncdel SYNCDEL_BIN || syncdel_eqb syncdel SYNCDEL_FAILED
              then [DropToDebris h]
              else [IssueMove h tn SYNCDEL_FAILED]
          | None => [DropToDebris h]
          end
    end.

Definition CommandMoveNode_procresult (ENABLE_SYNC : bool) (h : handle)
    (syncdel : syncdel_t) (has_completion : bool) (cl : client) (r : Result)
    (c : cursor) : outcome :=
  let effs :=
    if wasErrorOrOK r then
      (if wasError r API_EOVERQUOTA then [ActivateOverquota] else []) ++
      (if ENABLE_SYNC then movenode_sync cl h syncdel r else []) ++
      (if wasStrictlyError r && syncdel_eqb syncdel SYNCDEL_NONE
       then [SendEvent 99439] else [])
    else [] in
  (wasErrorOrOK r, c, cl,
   effs ++ (if has_completion then [Completion (errorOrOK r)] else [])).

(** *** CommandPutNodes::procresult
    [readnodes] is [MegaClient::readnodes] on the value of ["f"] or ["f2"]:
    whether it parsed the node array, which it applies to the tree. *)
Definition putnodes_state : Type := (error * bool * list effect)%type.

Definition putnodes_case (readnodes : jval -> bool) (s : putnodes_state)
    (k : nameid) (v : jval) : step putnodes_state :=
  let '(e, empty, acc) := s in
  if Z.eqb k ch_f then
    (* empty = !memcmp(json.pos, "[]", 2) *)
    let empty' := match v with JArr [] => true | _ => false end in
    if readnodes v then Next (API_OK, empty', acc ++ [ApplyNodes v]) None
    else Stop (API_EINTERNAL, empty', acc) (Some v)
  else if Z.eqb k NAME_f2 then
    if readnodes v then Next (e, empty, acc ++ [ApplyNodes v]) None
    else Stop (API_EINTERNAL, empty, acc) (Some v)
  else
    match storeobject v with
    | None => Next (e, empty, acc) None
    | Some pv => Stop (API_EINTERNAL, empty, acc) (Some pv)   (* falls through to EOO *)
    end.

Definition is_private (cl : client) (t : option handle) : bool :=
  match t with Some h => memZ h (private_nodes cl) | None => false end.

Definition putsource_eqb (a b : putsource_t) : bool :=
  match a, b with
  | PUTNODES_APP, PUTNODES_APP | PUTNODES_SYNC, PUTNODES_SYNC
  | PUTNODES_SYNCDEBRIS, PUTNODES_SYNCDEBRIS => true
  | _, _ => false
  end.

Definition putnodes_tail (ENABLE_SYNC : bool) (cl : client)
    (targethandle : option handle) (source : putsource_t) (e : error)
    (empty : bool) : list effect :=
  SendKeyRewrites ::
  (if ENABLE_SYNC && putsource_eqb source PUTNODES_SYNC then [Completion e; SyncResult e]
   else if putsource_eqb source PUTNODES_APP then
     (match targethandle with
      | Some t => if ENABLE_SYNC && memZ t (synced_nodes cl) then [SyncdownRequired] else []
      | None => []
      end) ++
     [Completion (if Z.eqb e API_OK && empty then API_ENOENT else e)]
   else if ENABLE_SYNC then [SyncDebrisResult e]
   else []).

Definition CommandPutNodes_procresult (ENABLE_SYNC : bool) (readnodes : jval -> bool)
    (targethandle : option handle) (source : putsource_t) (cl : client)
    (r : Result) (c : cursor) : outcome :=
  let parse (pre : list effect) :=
    let '((e, empty, acc), c') :=
      run_obj (putnodes_case readnodes) (fun s => s) (API_EINTERNAL, false, []) c in
    (true, c', cl, pre ++ acc ++ putnodes_tail ENABLE_SYNC cl targethandle source e empty) in
  if wasErrorOrOK r then
    let q := if wasError r API_EOVERQUOTA then
               (if is_private cl targethandle then [ActivateOverquota]
                else if ENABLE_SYNC && putsource_eqb source PUTNODES_SYNC then
                  match targethandle with Some t => [DisableSync t] | None => [] end
                else [])
             else [] in
    let e := errorOrOK r in
    if ENABLE_SYNC && putsource_eqb source PUTNODES_SYNC then
      (true, c, cl, RemovePendingRecords :: q ++
         (if wasError r API_EACCESS then [SendEvent 99402] else []) ++
         [Completion e; SyncResult e])
    else if putsource_eqb source PUTNODES_APP then
      (true, c, cl, RemovePendingRecords :: q ++ [Completion e])
    else if ENABLE_SYNC then
      (true, c, cl, RemovePendingRecords :: q ++ [SyncDebrisResult e])
    else parse (RemovePendingRecords :: q)
  else parse [RemovePendingRecords].


(** *** The virtual [procresult] *)
Definition procresult (ENABLE_SYNC : bool) (readnodes : jval -> bool) (cl : client)
    (cmd : command) (r : Result) (c : cursor) : outcome :=
  match ckind cmd with
  | PutFile tslot => CommandPutFile_procresult tslot (canceled cmd) cl r c
  | GetPutUrl => CommandGetPutUrl_procresult (canceled cmd) cl r c
  | SetAttr hc => CommandSetAttr_procresult hc cl r c
  | PutNodes t src => CommandPutNodes_procresult ENABLE_SYNC readnodes t src cl r c
  | MoveNode h sd _ hc => CommandMoveNode_procresult ENABLE_SYNC h sd hc cl r c
  | DelNode => CommandDelNode_procresult cl r c
  | Logout keep => CommandLogout_procresult keep cl r c
  | Prelogin => CommandPrelogin_procresult cl r c
  end.


(** Modelled from the spec: the code that runs [mOnCSCompletion] is in
    megaclient.cpp, not in src.  Per the comment in CommandLogout::procresult
    and section 5, the stored closure runs once the processing of the CS batch
    has returned, and is then cleared. *)
Definition finish_cs_batch (cl : client) : client * list effect :=
  match mOnCSCompletion cl with
  | Some f => (set_onCS cl None, f)
  | None => (cl, [])
  end.

(** ** Batching of outbound commands *)

(** The fields of a constructed command the request queue reads. *)
Record wirecmd : Type := mkwirecmd { opcode : string; batchSeparately : bool }.

(** Constructors (the [Command] base sets [batchSeparately] to false). *)
Definition CommandLogout_new : wirecmd := mkwirecmd "sml" true.
Definition CommandPrelogin_new : wirecmd := mkwirecmd "us0" true.
Definition CommandLogin_new : wirecmd := mkwirecmd "us" true.
Definition CommandFetchNodes_new : wirecmd := mkwirecmd "f" true.
Definition CommandDelNode_new : wirecmd := mkwirecmd "d" false.
Definition CommandMoveNode_new : wirecmd := mkwirecmd "m" false.
Definition CommandSetAttr_new : wirecmd := mkwirecmd "a" false.
Definition CommandPutNodes_new : wirecmd := mkwirecmd "p" false.

(** Modelled from the spec: RequestDispatcher::add is not in src.  Section
    4.4: [add] appends to the accumulating set; when [batchSeparately] is set
    and the accumulating set is non-empty, that set is flushed first, so the
    new command starts its own batch; section 3: such a command is never
    coalesced with other pending commands, so its batch is closed behind it.
    [closed] are the batches already formed, in order. *)
Record queue : Type := mkqueue { closed : list (list wirecmd); accumulating : list wirecmd }.

Definition empty_queue : queue := mkqueue [] [].

Definition add (q : queue) (c : wirecmd) : queue :=
  if batchSeparately c then
    let flushed := match accumulating q with
                   | [] => closed q
                   | acc => closed q ++ [acc]
                   end in
    mkqueue (flushed ++ [[c]]) []
  else mkqueue (closed q) (accumulating q ++ [c]).

(** The outbound requests, one per batch, in send order. *)
Definition requests (q : queue) : list (list wirecmd) :=
  match accumulating q with
  | [] => closed q
  | acc => closed q ++ [acc]
  end.

Definition enqueue_all (cs : list wirecmd) : queue := fold_left add cs empty_queue.

(** ** Phone numbers and SMS verification codes *)

(** The loop [for (auto i = s.size(); i--; )] of
    CommandSMSVerificationSend::isPhoneNumber, run over the first [i]
    characters from the last one down to the first. *)
Fixpoint phone_scan (s : string) (i : nat) : bool :=
  match i with
  | O => true
  | S i' =>
      match String.get i' s with
      | Some ch =>
          if isdigit ch || (Nat.eqb i' 0 && Ascii.eqb ch "+"%char)
          then phone_scan s i' else false
      | None => false
      end
  end.

(** CommandSMSVerificationSend::isPhoneNumber *)
Definition isPhoneNumber (s : string) : bool :=
  phone_scan s (String.length s) && Nat.ltb 6 (String.length s).

(** The loop [for (const char c : s)] of
    CommandSMSVerificationCheck::isVerificationCode. *)
Fixpoint all_digits (s : string) : bool :=
  match s with
  | EmptyString => true
  | String c s' => if isdigit c then all_digits s' else false
  end.

(** CommandSMSVerificationCheck::isVerificationCode *)
Definition isVerificationCode (s : string) : bool :=
  all_digits s && Nat.eqb (String.length s) 6.

(** The arguments [CommandSMSVerificationCheck]'s constructor adds after
    [cmd("smsv")]. *)
Definition CommandSMSVerificationCheck_args (verificationcode : string)
    : list (string * string) :=
  if isVerificationCode verificationcode then [("c"%string, verificationcode)] else [].

(** ** CommandDirectRead::procresult *)

Definition API_EINCOMPLETE : error := -13.
Definition API_EBLOCKED : error := -16.

Definition ch_d : Z := 100.
Definition ch_e : Z := 101.
Definition ch_g : Z := 103.
Definition ch_l : Z := 108.
Definition ch_t : Z := 116.
Definition NAME_tl : nameid := MAKENAMEID2 ch_t ch_l.

(** [RAIDPARTS]: the number of parts of a RAID download. *)
Definition RAIDPARTS : nat := 6.

Definition isSome {A : Type} (o : option A) : bool :=
  match o with Some _ => true | None => false end.

(** The fields of the [DirectReadNode] that the body assigns. *)
Record drnode : Type := mkdrnode {
  drn_pendingcmd : bool;        (* is [pendingcmd] set *)
  drn_tempurls : list jval;     (* the stored URL texts *)
  drn_size : Z
}.

Definition drn_clear_pending (d : drnode) : drnode :=
  mkdrnode false (drn_tempurls d) (drn_size d).
Definition drn_set_tempurls (d : drnode) (l : list jval) : drnode :=
  mkdrnode (drn_pendingcmd d) l (drn_size d).
Definition drn_set_size (d : drnode) (z : Z) : drnode :=
  mkdrnode (drn_pendingcmd d) (drn_tempurls d) z.

(** [drn->cmdresult(e)] ([timeleft] left at its default, [None]) or
    [drn->cmdresult(e, timeleft)]. *)
Inductive dreffect : Type :=
| DrnCmdResult (e : error) (timeleft : option Z).

(** [enterarray]; [for (;;) if (!storeobject(&tu)) break; ...]; [leavearray]:
    the leading values the scanner can skip are stored; from the first one it
    cannot skip on, the array stays unread. *)
Fixpoint store_all (l : list jval) : list jval * list jval :=
  match l with
  | [] => ([], [])
  | x :: t =>
      if wellformed x then let '(a, b) := store_all t in (x :: a, b)
      else ([], l)
  end.

(** Loop state: [e], [tl], [tempurls], the node, and the final return with
    the calls made. *)
Definition directread_state : Type :=
  (error * Z * list jval * option drnode * option (bool * list dreffect))%type.

Definition directread_case (canceled : bool) (s : directread_state) (k : nameid)
    (v : jval) : step directread_state :=
  let '(e, tl, tus, drn, _) := s in
  if Z.eqb k ch_g then
    let '(tus', lft) :=
      match v with
      | JArr l =>
          let '(a, b) := store_all l in
          (tus ++ a, match b with [] => None | _ => Some (JArr b) end)
      | _ =>
          match storeobject v with
          | None => (tus ++ [v], None)
          | Some pv => (tus, Some pv)
          end
      end in
    let n := List.length tus' in
    if Nat.eqb n 1 || Nat.eqb n RAIDPARTS then
      match drn with
      | Some d =>
          (* drn->tempurls.swap(tempurls); e.setErrorCode(API_OK) *)
          Next (API_OK, tl, drn_tempurls d, Some (drn_set_tempurls d tus'), None) lft
      | None => Next (e, tl, tus', drn, None) lft
      end
    else Next (API_EINCOMPLETE, tl, tus', drn, None) lft
  else if Z.eqb k ch_s then
    match drn with
    | Some d => let '(z, lft) := getint v in
                Next (e, tl, tus, Some (drn_set_size d z), None) lft
    | None => Next (e, tl, tus, drn, None) (Some v)
    end
  else if Z.eqb k ch_d then
    Next (API_EBLOCKED, tl, tus, drn, None) (Some v)
  else if Z.eqb k ch_e then
    (* e = (error)getint() *)
    let '(z, lft) := getint v in Next (to_int32 z, tl, tus, drn, None) lft
  else if Z.eqb k NAME_tl then
    (* tl = dstime(getint()) *)
    let '(z, lft) := getint v in Next (e, to_uint32 z, tus, drn, None) lft
  else
    match storeobject v with
    | None => Next (e, tl, tus, drn, None) None
    | Some pv =>
        Stop (e, tl, tus, drn,
              Some (false, if negb canceled && isSome drn
                           then [DrnCmdResult e None] else []))
             (Some pv)
    end.

(** [default_backoff] is [MegaClient::DEFAULT_BW_OVERQUOTA_BACKOFF_SECS]. *)
Definition directread_eoo (default_backoff : Z) (canceled : bool)
    (s : directread_state) : directread_state :=
  let '(e, tl, tus, drn, _) := s in
  if negb canceled && isSome drn then
    let tl' := if Z.eqb e API_EOVERQUOTA && Z.eqb tl 0
               then to_uint32 default_backoff else tl in
    (* tl * 10 in [dstime] arithmetic *)
    (e, tl', tus, drn,
     Some (true, [DrnCmdResult e (Some (if Z.eqb e API_EOVERQUOTA
                                        then to_uint32 (tl' * 10) else 0))]))
  else (e, tl, tus, drn, Some (true, [])).

Definition CommandDirectRead_procresult (default_backoff : Z) (canceled : bool)
    (drn0 : option drnode) (r : Result) (c : cursor)
    : bool * cursor * option drnode * list dreffect :=
  (* if (drn) drn->pendingcmd = NULL; *)
  let drn := option_map drn_clear_pending drn0 in
  if wasErrorOrOK r then
    (true, c, drn,
     if negb canceled && isSome drn then [DrnCmdResult (errorOrOK r) None] else [])
  else
    let '((_, _, _, drn', fin), c') :=
      run_obj (directread_case canceled) (directread_eoo default_backoff canceled)
              (API_EINTERNAL, 0, [], drn, None) c in
    match fin with
    | Some (b, effs) => (b, c', drn', effs)
    | None => (true, c', drn', [])
    end.

(** The fields of the loop state the proofs refer to. *)
Definition dr_drn (s : directread_state) : option drnode :=
  let '(_, _, _, drn, _) := s in drn.
Definition dr_fin (s : directread_state) : option (bool * list dreffect) :=
  let '(_, _, _, _, fin) := s in fin.
Definition dr_err (s : directread_state) : error :=
  let '(e, _, _, _, _) := s in e.

(** *** HttpReqCommandPutFA::procresult, its branch for an object slot *)

(** [getnameid] on the cursor, as in the member loop: a member's key, its
    value left pending; a pending string read as a key; [EOO] without
    moving at any other pending value or at the closing brace. *)
Definition getnameid (c : cursor) : nameid * cursor :=
  match pending c, rest c with
  | None, (k, v) :: ms => (k, mkcursor (Some v) ms)
  | Some (JStr t), ms => (text_nameid t, mkcursor None ms)
  | _, _ => (EOO, c)
  end.

(** The text a reader finds at the cursor, and the cursor past it: the
    pending value, else the next member's key string (its value then
    pending), else the closing brace, which cannot be passed. *)
Definition next_value (c : cursor) : jval * cursor :=
  match pending c, rest c with
  | Some v, ms => (v, mkcursor None ms)
  | None, (k, v) :: ms => (JStr (name_text k), mkcursor (Some v) ms)
  | None, [] => (JBad, c)
  end.

(** The [for (;;)] loop, run for at most [fuel] rounds ([None] when the
    fuel runs out).  [p] is the value [getvalue] returned for ["p"] (NULL
    when it could not skip it); [acc] the calls made so far.  At [EOO] with
    [p] NULL the body sets [status] and breaks out of the [switch] only, so
    the loop goes round again. *)
Fixpoint putfa_loop (fuel : nat) (p : option jval) (c : cursor) (acc : list effect)
    : option (bool * cursor * list effect) :=
  match fuel with
  | O => None
  | S f =>
      let '(k, c1) := getnameid c in
      (* the value after the key, and the cursor once it is read *)
      let '(v, c2) := next_value c1 in
      if Z.eqb k ch_p then
        (* p = client->json.getvalue() *)
        if wellformed v then putfa_loop f (Some v) c2 acc
        else putfa_loop f None c1 acc
      else if Z.eqb k NAME_ip then
        match loadIpsFromJson v with
        | None => putfa_loop f p c2 acc
        | Some _ => putfa_loop f p c1 acc
        end
      else if Z.eqb k EOO then
        match p with
        | None => putfa_loop f p c1 (acc ++ [SetStatus REQ_FAILURE])
        | Some _ => Some (true, c1, acc ++ [CacheResolvedUrls; Completion API_OK])
        end
      else
        match storeobject v with
        | None => putfa_loop f p c2 acc
        | Some _ =>
            Some (false, c1, acc ++ [SetStatus REQ_SUCCESS; Completion API_EINTERNAL])
        end
  end.

Definition HttpReqCommandPutFA_procresult_object (fuel : nat) (c : cursor)
    : option (bool * cursor * list effect) :=
  putfa_loop fuel None c [].

(** ** CommandGetFA::procresult *)

(** A [std::map] keyed by handles or integers, as an association list kept
    in key order: [m[k] = v] and [find]. *)
Fixpoint map_set {V : Type} (m : list (Z * V)) (k : Z) (v : V) : list (Z * V) :=
  match m with
  | [] => [(k, v)]
  | (k', v') :: t =>
      if Z.ltb k k' then (k, v) :: m
      else if Z.eqb k k' then (k, v) :: t
      else (k', v') :: map_set t k v
  end.

Definition map_find {V : Type} (m : list (Z * V)) (k : Z) : option V :=
  option_map snd (find (fun kv => Z.eqb (fst kv) k) m).

(** A [FileAttributeFetchChannel]: its fresh ([fafs[0]]) and pending
    ([fafs[1]]) fetches, keyed by node handle (the values stand for the
    [FileAttributeFetch] pointers), its error, [req.status] as last assigned
    here and [posturl]. *)
Record fafc : Type := mkfafc {
  fafs_fresh : list (handle * Z);
  fafs_pending : list (handle * Z);
  fafc_e : error;
  fafc_status : option reqstatus;
  fafc_posturl : option jval
}.

(** The loop moving every fresh fetch to the pending ones. *)
Definition move_fresh (fresh pend : list (handle * Z)) : list (handle * Z) :=
  fold_left (fun acc kv => map_set acc (fst kv) (snd kv)) fresh pend.

(** Move from fresh to pending, then [e = ...; req.status = REQ_FAILURE]. *)
Definition fafc_requeue (f : fafc) (e : error) : fafc :=
  mkfafc [] (move_fresh (fafs_fresh f) (fafs_pending f)) e (Some REQ_FAILURE)
         (fafc_posturl f).

(** [JSON::copystring(&it->second->posturl, p)] ([urltime], a clock
    reading, is not modelled). *)
Definition fafc_set_posturl (f : fafc) (u : jval) : fafc :=
  mkfafc (fafs_fresh f) (fafs_pending f) (fafc_e f) (fafc_status f) (Some u).

(** Calls the body makes: [it->second->dispatch()], and a dereference of
    [it] when [find] returned [end()]. *)
Inductive gfa_effect : Type :=
| FafcDispatch (part : Z)
| FafcEndDeref.

Definition getfa_result : Type := (bool * list (Z * fafc) * list gfa_effect)%type.

(** Loop state: the value [getvalue] returned for ["p"], and the final return. *)
Definition getfa_state : Type := (option jval * option getfa_result)%type.

Definition getfa_case (fafcs : list (Z * fafc)) (part : Z) (s : getfa_state)
    (k : nameid) (v : jval) : step getfa_state :=
  let '(p, _) := s in
  if Z.eqb k ch_p then
    (* p = client->json.getvalue() *)
    if wellformed v then Next (Some v, None) None else Next (None, None) (Some v)
  else
    match storeobject v with
    | None => Next (p, None) None
    | Some pv =>
        let '(m, effs) :=
          match map_find fafcs part with
          | Some f => (map_set fafcs part (fafc_requeue f API_EINTERNAL), [])
          | None => (fafcs, [FafcEndDeref])
          end in
        Stop (p, Some (false, m, effs)) (Some pv)
    end.

Definition getfa_eoo (fafcs : list (Z * fafc)) (part : Z) (s : getfa_state)
    : getfa_state :=
  let '(p, _) := s in
  let '(m, effs) :=
    match map_find fafcs part with
    | Some f =>
        match p with
        | Some u => (map_set fafcs part (fafc_set_posturl f u), [FafcDispatch part])
        | None => (map_set fafcs part (fafc_requeue f API_EINTERNAL), [])
        end
    | None => (fafcs, [])
    end in
  (p, Some (true, m, effs)).

(** [fafcs] is [client->fafcs], [part] the command's channel. *)
Definition CommandGetFA_procresult (fafcs : list (Z * fafc)) (part : Z) (r : Result)
    (c : cursor) : bool * cursor * list (Z * fafc) * list gfa_effect :=
  if wasErrorOrOK r then
    (true, c,
     match map_find fafcs part with
     | Some f => map_set fafcs part (fafc_requeue f (errorOrOK r))
     | None => fafcs
     end, [])
  else
    let '((_, fin), c') := run_obj (getfa_case fafcs part) (getfa_eoo fafcs part) (None, None) c in
    match fin with
    | Some (b, fafcs', effs) => (b, c', fafcs', effs)
    | None => (true, c', fafcs, [])
    end.

(** The channel of [part] after the fetches were put back for a retry with
    error [e]: nothing is fresh any more; each fresh fetch is now pending,
    replacing a pending one of the same node; the other pending fetches are
    kept; [e] and [REQ_FAILURE] are set. *)
Definition requeued (fafcs' : list (Z * fafc)) (part : Z) (f : fafc) (e : error) : Prop :=
  exists f',
    map_find fafcs' part = Some f' /\
    fafs_fresh f' = [] /\ fafc_e f' = e /\ fafc_status f' = Some REQ_FAILURE /\
    forall h, map_find (fafs_pending f') h =
              match map_find (fafs_fresh f) h with
              | Some x => Some x
              | None => map_find (fafs_pending f) h
              end.

(** ** CommandGetVersion::procresult *)

Definition ch_c : Z := 99.

(** [client->app->getversion_result(versioncode, versionstring, e)];
    [None] for a NULL string. *)
Inductive gv_effect : Type :=
| GetVersionResult (versioncode : Z) (versionstring : option string) (e : error).

(** Loop state: [versioncode], [versionstring], and the final return. *)
Definition getversion_state : Type := (Z * string * option (bool * list gv_effect))%type.

Definition getversion_case (s : getversion_state) (k : nameid) (v : jval)
    : step getversion_state :=
  let '(code, str, _) := s in
  if Z.eqb k ch_c then
    (* versioncode = int(getint()) *)
    let '(z, lft) := getint v in Next (to_int32 z, str, None) lft
  else if Z.eqb k ch_s then
    (* storeobject(&versionstring): a failure is not checked *)
    match storeobject v with
    | None => Next (code, stored_text v, None) None
    | Some pv => Next (code, str, None) (Some pv)
    end
  else
    match storeobject v with
    | None => Next (code, str, None) None
    | Some pv => Stop (code, str, Some (false, [GetVersionResult 0 None API_EINTERNAL])) (Some pv)
    end.

Definition getversion_eoo (s : getversion_state) : getversion_state :=
  let '(code, str, _) := s in
  (code, str, Some (true, [GetVersionResult code (Some str) API_OK])).

Definition CommandGetVersion_procresult (r : Result) (c : cursor)
    : bool * cursor * list gv_effect :=
  if wasErrorOrOK r then (wasErrorOrOK r, c, [GetVersionResult 0 None (errorOrOK r)])
  else
    let '((_, _, fin), c') := run_obj getversion_case getversion_eoo (0, ""%string, None) c in
    match fin with
    | Some (b, effs) => (b, c', effs)
    | None => (true, c', [])
    end.

(** ** CommandRemoveSet::procresult *)

(** Calls the body makes: [client->deleteSet(mSetId)] and [mCompletion(e)]. *)
Inductive se_effect : Type :=
| DeleteSet (id : handle)
| SECompletion (e : error).

(** [CommandSE::procerrorcode]: the parsed flag and the error, [e] unchanged
    when the slot is not a code. *)
Definition CommandSE_procerrorcode (r : Result) (e : error) : bool * error :=
  if wasErrorOrOK r then (true, errorOrOK r) else (false, e).

(** [deleted] is the value [client->deleteSet] returns (whether the set was
    known and removed). *)
Definition CommandRemoveSet_procresult (mSetId : handle) (has_completion deleted : bool)
    (r : Result) : bool * list se_effect :=
  let '(parsedOk, e0) := CommandSE_procerrorcode r API_OK in
  let '(dels, e) :=
    if parsedOk && Z.eqb e0 API_OK
    then ([DeleteSet mSetId], if deleted then e0 else API_ENOENT)
    else ([], e0) in
  (parsedOk, dels ++ (if has_completion then [SECompletion e] else [])).

(** ** Sample runs *)

Definition cl0 : client := mkclient 1 None [10] [(10, None); (20, Some 10)] [] [] (Some 30).

Example delnode_sample :
  effects_of (CommandDelNode_procresult cl0 CmdObject
                (cursor_of_slot (SObject [(ch_r, JArr [JNum (-9)])]))) = [Completion (-9)].
Proof. reflexivity. Qed.

Example prelogin_sample :
  effects_of (CommandPrelogin_procresult cl0 CmdObject
                (cursor_of_slot (SObject [(ch_v, JNum 2); (ch_s, JStr "abc")])))
  = [SetAccount 2 "abc"; Completion API_OK].
Proof. reflexivity. Qed.

Example putnodes_sample :
  effects_of (CommandPutNodes_procresult false (fun _ => true) (Some 10) PUTNODES_APP cl0
                CmdObject (cursor_of_slot (SObject [(ch_f, JArr [JObj []])])))
  = [RemovePendingRecords; ApplyNodes (JArr [JObj []]); SendKeyRewrites; Completion API_OK].
Proof. reflexivity. Qed.

Example requests_sample :
  requests (enqueue_all [CommandDelNode_new; CommandLogout_new; CommandSetAttr_new])
  = [[CommandDelNode_new]; [CommandLogout_new]; [CommandSetAttr_new]].
Proof. reflexivity. Qed.

Definition fafc_sample : fafc :=
  mkfafc [(1, 100); (3, 300)] [(2, 20); (3, 30)] API_OK None None.

(** ** Facts about the member loop *)

Section LoopFacts.
Context {S : Type} (case : S -> nameid -> jval -> step S) (at_eoo : S -> S).



Lemma obj_loop_inv (Q : S -> Prop) :
  (forall s k v s' l, Q s -> case s k v = Next s' l -> Q s') ->
  (forall s k v s' l, Q s -> case s k v = Stop s' l -> Q s') ->
  (forall s, Q s -> Q (at_eoo s)) ->
  forall ms p s, Q s -> Q (fst (obj_loop case at_eoo s p ms)).
Proof.
  intros Hn Hs He ms. induction ms as [|[k v] ms IH]; intros p s Hq.
  - destruct p as [[]|]; simpl; auto.
    destruct (Z.eqb _ EOO); [simpl; auto|].
    destruct (case s _ JBad) eqn:E; simpl; eauto.
  - destruct p as [[]|]; simpl; auto.
    + destruct (Z.eqb _ EOO); [simpl; auto|].
      destruct (case s _ (JStr (name_text k))) as [s' [pv|] | s' [pv|]] eqn:E; simpl; eauto.
      assert (Q s') by eauto.
      destruct (Z.eqb k EOO); [simpl; auto|].
      destruct (case s' k v) eqn:E2; simpl; eauto.
    + destruct (Z.eqb k EOO); [simpl; auto|].
      destruct (case s k v) eqn:E; simpl; eauto.
Qed.

Lemma run_obj_inv (Q : S -> Prop) :
  (forall s k v s' l, Q s -> case s k v = Next s' l -> Q s') ->
  (forall s k v s' l, Q s -> case s k v = Stop s' l -> Q s') ->
  (forall s, Q s -> Q (at_eoo s)) ->
  forall c s, Q s -> Q (fst (run_obj case at_eoo s c)).
Proof. intros Hn Hs He c s Hq. unfold run_obj. apply obj_loop_inv; assumption. Qed.

Lemma obj_loop_consumes (P : member -> Prop) :
  (forall s k v, P (k, v) -> exists s', case s k v = Next s' None) ->
  forall ms s, Forall P ms -> Forall (fun kv => fst kv <> EOO) ms ->
  snd (obj_loop case at_eoo s None ms) = mkcursor None [].
Proof.
  intros HP ms. induction ms as [|[k v] ms IH]; intros s Hall Hkeys; simpl; [reflexivity|].
  inversion Hall as [|? ? Hkv Hall']; subst. inversion Hkeys as [|? ? Hk Hkeys']; subst.
  simpl in Hk. apply Z.eqb_neq in Hk. rewrite Hk.
  destruct (HP s k v Hkv) as [s' E]. rewrite E. apply IH; assumption.
Qed.


End LoopFacts.


(** ** Result shapes *)

Definition shape_count (r : Result) : nat :=
  List.length (filter (fun b => b) [wasErrorOrOK r; hasJsonObject r; hasJsonArray r; hasJsonItem r]).

(** C3 counterexample: a scalar item slot satisfies none of [wasErrorOrOK],
    [hasJsonObject], [hasJsonArray]. *)
Lemma C3_item_slot_has_none_of_three :
  let r := result_of_slot (SItem (JStr "abc")) in
  wasErrorOrOK r = false /\ hasJsonObject r = false /\ hasJsonArray r = false.
Proof. repeat split. Qed.

(** C3 (amended): every response slot satisfies exactly one of the four shape
    queries [wasErrorOrOK], [hasJsonObject], [hasJsonArray], [hasJsonItem];
    a slot that is not a bare code is an object, an array or an item. *)
Theorem C3_exactly_one_of_four_shapes :
  forall s : slot,
    shape_count (result_of_slot s) = 1%nat /\
    (wasErrorOrOK (result_of_slot s) = false ->
     hasJsonObject (result_of_slot s) = true \/ hasJsonArray (result_of_slot s) = true \/
     hasJsonItem (result_of_slot s) = true).
Proof. intros [e|ms|l|v]; simpl; auto. Qed.

(** ** Logout *)

(** C9: on a logout reply with code [e], [procresult] decrements a positive
    [loggingout]; on API_OK it makes no call inline but stores the teardown
    and the completion in [mOnCSCompletion], which run when the CS batch has
    been processed; on any other code it calls the completion at once with
    that code. *)
Theorem C9_logout_defers_teardown :
  forall (keep : bool) (cl : client) (e : error) (c : cursor),
    let o := CommandLogout_procresult keep cl (CmdError e) c in
    ret_of o = true /\
    loggingout (client_of o) =
      (if Z.ltb 0 (loggingout cl) then loggingout cl - 1 else loggingout cl) /\
    (e = API_OK ->
       effects_of o = [] /\
       mOnCSCompletion (client_of o) = Some [LocalLogout keep; Completion API_OK] /\
       snd (finish_cs_batch (client_of o)) = [LocalLogout keep; Completion API_OK] /\
       mOnCSCompletion (fst (finish_cs_batch (client_of o))) = None) /\
    (e <> API_OK ->
       effects_of o = [Completion e] /\
       mOnCSCompletion (client_of o) = mOnCSCompletion cl).
Proof.
  intros keep cl e c o. subst o. unfold CommandLogout_procresult. simpl.
  destruct (Z.eqb e API_OK) eqn:He.
  - apply Z.eqb_eq in He. subst e.
    destruct (Z.ltb 0 (loggingout cl)); simpl;
      (split; [reflexivity|]); (split; [reflexivity|]);
      (split; [intros _; repeat split; reflexivity|]);
      intros Hne; exfalso; apply Hne; reflexivity.
  - apply Z.eqb_neq in He.
    destruct (Z.ltb 0 (loggingout cl)); simpl;
      (split; [reflexivity|]); (split; [reflexivity|]);
      (split; [intros Heq; exfalso; apply He; exact Heq|]);
      intros _; split; reflexivity.
Qed.

(** ** Batching *)

Definition batch_ok (b : list wirecmd) : Prop :=
  b <> [] /\ (existsb batchSeparately b = true -> List.length b = 1%nat).

Definition queue_inv (q : queue) : Prop :=
  Forall batch_ok (closed q) /\ Forall (fun c => batchSeparately c = false) (accumulating q).

Lemma requests_ok (q : queue) : queue_inv q -> Forall batch_ok (requests q).
Proof.
  intros [Hc Ha]. unfold requests. destruct (accumulating q) as [|c acc] eqn:E; [exact Hc|].
  apply Forall_app; split; [exact Hc|]. constructor; [|constructor].
  split; [discriminate|]. intros Hx. exfalso.
  apply existsb_exists in Hx. destruct Hx as [x [Hin Hsep]].
  rewrite Forall_forall in Ha. rewrite (Ha x Hin) in Hsep. discriminate.
Qed.

Lemma add_inv (q : queue) (c : wirecmd) : queue_inv q -> queue_inv (add q c).
Proof.
  intros [Hc Ha]. unfold add. destruct (batchSeparately c) eqn:Hs.
  - split; [|constructor]. simpl. apply Forall_app; split.
    + destruct (accumulating q) as [|a acc] eqn:E; [exact Hc|].
      apply Forall_app; split; [exact Hc|]. constructor; [|constructor].
      split; [discriminate|]. intros Hx. exfalso.
      apply existsb_exists in Hx. destruct Hx as [x [Hin Hsep]].
      rewrite Forall_forall in Ha. rewrite (Ha x Hin) in Hsep. discriminate.
    + constructor; [|constructor]. split; [discriminate|reflexivity].
  - split; [exact Hc|]. simpl. apply Forall_app; split; [exact Ha|]. constructor; auto.
Qed.

Lemma concat_requests_add (q : queue) (c : wirecmd) :
  List.concat (requests (add q c)) = List.concat (requests q) ++ [c].
Proof.
  unfold add, requests.
  destruct (batchSeparately c); destruct (accumulating q) as [|a acc]; simpl;
    rewrite ?concat_app; simpl; rewrite ?app_nil_r, <- ?app_assoc; reflexivity.
Qed.

Lemma enqueue_fold (cs : list wirecmd) (q : queue) :
  queue_inv q ->
  queue_inv (fold_left add cs q) /\
  List.concat (requests (fold_left add cs q)) = List.concat (requests q) ++ cs.
Proof.
  revert q. induction cs as [|c cs IH]; intros q Hq; simpl.
  - rewrite app_nil_r. auto.
  - destruct (IH (add q c) (add_inv q c Hq)) as [H1 H2]. split; [exact H1|].
    rewrite H2, concat_requests_add, <- app_assoc. reflexivity.
Qed.

(** C8: the logout, prelogin, login and fetch-nodes commands are built with
    [batchSeparately] set; whatever commands are enqueued, every outbound
    request is non-empty, the requests carry the commands in their order, and
    a request holding a [batchSeparately] command holds nothing else; so a
    normal command followed by such a command gives two requests. *)
Theorem C8_batchSeparately_isolated :
  batchSeparately CommandLogout_new = true /\ batchSeparately CommandPrelogin_new = true /\
  batchSeparately CommandLogin_new = true /\ batchSeparately CommandFetchNodes_new = true /\
  (forall cs : list wirecmd,
     List.concat (requests (enqueue_all cs)) = cs /\
     Forall batch_ok (requests (enqueue_all cs))) /\
  (forall n s : wirecmd, batchSeparately n = false -> batchSeparately s = true ->
     requests (enqueue_all [n; s]) = [[n]; [s]]).
Proof.
  split; [reflexivity|]. split; [reflexivity|]. split; [reflexivity|].
  split; [reflexivity|]. split.
  - intros cs. destruct (enqueue_fold cs empty_queue) as [H1 H2];
      [split; constructor|]. split; [exact H2|]. apply requests_ok. exact H1.
  - intros n s Hn Hs. unfold enqueue_all. simpl. unfold add at 2. rewrite Hn. simpl.
    unfold add. rewrite Hs. reflexivity.
Qed.

Lemma C8_witness :
  batchSeparately CommandDelNode_new = false /\ batchSeparately CommandLogout_new = true /\
  requests (enqueue_all [CommandDelNode_new; CommandLogout_new])
  = [[CommandDelNode_new]; [CommandLogout_new]].
Proof.
  split; [reflexivity|]. split; [reflexivity|].
  apply (proj2 (proj2 (proj2 (proj2 (proj2 C8_batchSeparately_isolated)))));
    reflexivity.
Defined.

(** ** Move and create under an over-quota error *)

Definition clean (x : effect) : bool := negb (is_completion x) && negb (tree_mutation x).

Lemma movenode_sync_clean (cl : client) (h : handle) (sd : syncdel_t) (r : Result) :
  forallb clean (movenode_sync cl h sd r) = true.
Proof.
  unfold movenode_sync.
  destruct (syncdel_eqb sd SYNCDEL_NONE); [reflexivity|].
  destruct (nodeByHandle cl h); [|reflexivity].
  destruct (wasError r API_OK).
  - induction (toDebris cl) as [|n l IH]; [reflexivity|]. cbn [flat_map].
    rewrite forallb_app, IH, andb_true_r.
    destruct (under (S (List.length (nodes cl))) cl n h); reflexivity.
  - destruct (rubbish cl); [|reflexivity].
    destruct (syncdel_eqb sd SYNCDEL_BIN || syncdel_eqb sd SYNCDEL_FAILED); reflexivity.
Qed.

Lemma completions_app (l1 l2 : list effect) :
  completions (l1 ++ l2) = completions l1 ++ completions l2.
Proof. unfold completions. apply filter_app. Qed.

Lemma completions_clean (l : list effect) : forallb clean l = true -> completions l = [].
Proof.
  induction l as [|x l IH]; [reflexivity|]. simpl. intros H.
  apply andb_prop in H. destruct H as [Hx Hl].
  unfold clean in Hx. apply andb_prop in Hx. destruct Hx as [Hx _].
  unfold completions. simpl. destruct (is_completion x); [discriminate|]. apply IH, Hl.
Qed.

Lemma putnodes_overquota_private ES rn t src cl c :
  is_private cl t = true ->
  In ActivateOverquota
     (effects_of (CommandPutNodes_procresult ES rn t src cl (CmdError API_EOVERQUOTA) c)).
Proof.
  intros Hp. unfold CommandPutNodes_procresult. simpl. rewrite Hp.
  destruct (ES && putsource_eqb src PUTNODES_SYNC); simpl; [right; left; reflexivity|].
  destruct (putsource_eqb src PUTNODES_APP); simpl; [right; left; reflexivity|].
  destruct ES; simpl; [right; left; reflexivity|].
  destruct (run_obj _ _ _ c) as [[[e empty] acc] c']. simpl. right; left; reflexivity.
Qed.

(** C7: a move-node reply of API_EOVERQUOTA (-17) activates the over-quota
    account state, calls the completion exactly once with -17 and changes no
    node of the tree (with the sync engine it may only update the sync
    bookkeeping or issue a new move command); a create-node reply of -17 for
    a private target also activates the over-quota state. *)
Theorem C7_overquota_move_and_putnodes :
  (forall (ES : bool) (h : handle) (sd : syncdel_t) (cl : client) (c : cursor),
     let o := CommandMoveNode_procresult ES h sd true cl (CmdError API_EOVERQUOTA) c in
     ret_of o = true /\ client_of o = cl /\
     In ActivateOverquota (effects_of o) /\
     completions (effects_of o) = [Completion API_EOVERQUOTA] /\
     forallb (fun x => negb (tree_mutation x)) (effects_of o) = true) /\
  (forall (ES : bool) (rn : jval -> bool) (t : option handle) (src : putsource_t)
          (cl : client) (c : cursor),
     is_private cl t = true ->
  In ActivateOverquota
        (effects_of (CommandPutNodes_procresult ES rn t src cl (CmdError API_EOVERQUOTA) c))).
Proof.
  split; [|exact putnodes_overquota_private].
  intros ES h sd cl c o. subst o. unfold CommandMoveNode_procresult. simpl.
  split; [reflexivity|]. split; [reflexivity|]. split; [left; reflexivity|].
  assert (Hs : forallb clean ((if ES then movenode_sync cl h sd (CmdError API_EOVERQUOTA) else []) ++
                 (if syncdel_eqb sd SYNCDEL_NONE then [SendEvent 99439] else [])) = true).
  { rewrite forallb_app. apply andb_true_intro. split.
    - destruct ES; [apply movenode_sync_clean|reflexivity].
    - destruct (syncdel_eqb sd SYNCDEL_NONE); reflexivity. }
  split.
  - rewrite completions_app, (completions_clean _ Hs). reflexivity.
  - rewrite forallb_app. simpl. rewrite andb_true_r.
    rewrite forallb_forall in Hs |- *. intros x Hx.
    specialize (Hs x Hx). unfold clean in Hs. apply andb_prop in Hs. apply Hs.
Qed.

Lemma C7_witness :
  is_private cl0 (Some 10) = true /\
  In ActivateOverquota
     (effects_of (CommandPutNodes_procresult false (fun _ => true) (Some 10) PUTNODES_APP cl0
                    (CmdError API_EOVERQUOTA) (mkcursor None []))).
Proof.
  split; [reflexivity|].
  apply (proj2 C7_overquota_move_and_putnodes). reflexivity.
Defined.

(** ** Create-node reply with an empty node array *)

Definition has_f (ms : list member) : bool := existsb (fun kv => Z.eqb (fst kv) ch_f) ms.

(** A member of a create-node reply that parses: a key, ["f"] holding the
    empty array and read by [readnodes], ["f2"] read by [readnodes], any
    other value skippable. *)
Definition putnodes_member_ok (rn : jval -> bool) (kv : member) : Prop :=
  fst kv <> EOO /\
  (fst kv = ch_f -> snd kv = JArr [] /\ rn (snd kv) = true) /\
  (fst kv = NAME_f2 -> rn (snd kv) = true) /\
  (fst kv <> ch_f -> fst kv <> NAME_f2 -> wellformed (snd kv) = true).

Lemma putnodes_loop_ok (rn : jval -> bool) (ms : list member) :
  Forall (putnodes_member_ok rn) ms ->
  forall e empty acc, exists acc',
    obj_loop (putnodes_case rn) (fun s => s) (e, empty, acc) None ms =
      ((if has_f ms then API_OK else e, if has_f ms then true else empty, acc'),
       mkcursor None []) /\
    completions acc' = completions acc.
Proof.
  induction ms as [|[k v] ms IH]; intros Hall e empty acc.
  - exists acc. split; reflexivity.
  - inversion Hall as [|? ? [Hk [Hf [Hf2 Hd]]] Hall']; subst.
    simpl in Hk, Hf, Hf2, Hd. cbn [obj_loop has_f existsb fst].
    apply Z.eqb_neq in Hk. rewrite Hk. fold (has_f ms).
    destruct (Z.eqb k ch_f) eqn:Ef.
    + apply Z.eqb_eq in Ef. destruct (Hf Ef) as [Hv Hr]. subst v.
      assert (Hs : putnodes_case rn (e, empty, acc) k (JArr [])
                   = Next (API_OK, true, acc ++ [ApplyNodes (JArr [])]) None).
      { unfold putnodes_case. rewrite Ef, Z.eqb_refl, Hr. reflexivity. }
      rewrite Hs.
      destruct (IH Hall' API_OK true (acc ++ [ApplyNodes (JArr [])])) as [acc' [Hl Hc]].
      exists acc'. rewrite Hl. split.
      * destruct (has_f ms); reflexivity.
      * rewrite Hc, completions_app. simpl. apply app_nil_r.
    + apply Z.eqb_neq in Ef. cbn [orb].
      destruct (Z.eqb k NAME_f2) eqn:E2.
      * apply Z.eqb_eq in E2.
        assert (Hs : putnodes_case rn (e, empty, acc) k v
                     = Next (e, empty, acc ++ [ApplyNodes v]) None).
        { unfold putnodes_case. apply Z.eqb_neq in Ef. rewrite Ef, E2, Z.eqb_refl.
          rewrite (Hf2 E2). reflexivity. }
        rewrite Hs.
        destruct (IH Hall' e empty (acc ++ [ApplyNodes v])) as [acc' [Hl Hc]].
        exists acc'. rewrite Hl. split; [reflexivity|].
        rewrite Hc, completions_app. simpl. apply app_nil_r.
      * apply Z.eqb_neq in E2.
        assert (Hs : putnodes_case rn (e, empty, acc) k v = Next (e, empty, acc) None).
        { unfold putnodes_case. rewrite (proj2 (Z.eqb_neq _ _) Ef).
          rewrite (proj2 (Z.eqb_neq _ _) E2). unfold storeobject. rewrite (Hd Ef E2).
          reflexivity. }
        rewrite Hs.
        destruct (IH Hall' e empty acc) as [acc' [Hl Hc]].
        exists acc'. rewrite Hl. split; [reflexivity | exact Hc].
Qed.

(** C10: an app-issued create-node command whose object reply parses
    completely but whose ["f"] node array is empty completes with API_ENOENT,
    not API_OK; [procresult] returns true with the slot consumed. *)
Theorem C10_putnodes_empty_f_enoent :
  forall (ES : bool) (rn : jval -> bool) (t : option handle) (cl : client)
         (ms : list member),
    Forall (putnodes_member_ok rn) ms -> has_f ms = true ->
    let o := CommandPutNodes_procresult ES rn t PUTNODES_APP cl CmdObject
               (cursor_of_slot (SObject ms)) in
    ret_of o = true /\ positioned (cur_of o) = true /\
    completions (effects_of o) = [Completion API_ENOENT].
Proof.
  intros ES rn t cl ms Hall Hf o. subst o.
  unfold CommandPutNodes_procresult. simpl. unfold run_obj. simpl.
  destruct (putnodes_loop_ok rn ms Hall API_EINTERNAL false []) as [acc' [Hl Hc]].
  rewrite Hl, Hf. simpl. split; [reflexivity|]. split; [reflexivity|].
  unfold putnodes_tail. rewrite andb_false_r. simpl.
  rewrite completions_app, Hc. simpl.
  destruct t as [h|]; [destruct (ES && memZ h (synced_nodes cl))|]; reflexivity.
Qed.

Lemma C10_witness :
  Forall (putnodes_member_ok (fun _ => true)) [(ch_f, JArr [])] /\
  has_f [(ch_f, JArr [])] = true /\
  completions (effects_of (CommandPutNodes_procresult false (fun _ => true) (Some 10)
                 PUTNODES_APP cl0 CmdObject (cursor_of_slot (SObject [(ch_f, JArr [])]))))
  = [Completion API_ENOENT].
Proof.
  assert (H : Forall (putnodes_member_ok (fun _ => true)) [(ch_f, JArr [])]).
  { constructor; [|constructor]. unfold putnodes_member_ok; simpl.
    split; [discriminate|]. split; [auto|]. split; [discriminate|].
    intros H; exfalso; apply H; reflexivity. }
  split; [exact H|]. split; [reflexivity|].
  apply (C10_putnodes_empty_f_enoent false (fun _ => true) (Some 10) cl0 [(ch_f, JArr [])] H
           eq_refl).
Defined.

(** ** Return value and cursor *)

(** C1 (code_bug): a create-node reply holding a member that cannot be
    skipped makes [CommandPutNodes::procresult] log a parse error, complete
    with API_EINTERNAL and still return true, with the cursor stuck inside
    the slot; CommandDelNode returns false on the same slot. *)
Lemma C1_putnodes_parse_error_returns_true :
  let bad := SObject [(120, JBad)] in
  let o := procresult false (fun _ => true) cl0
             (mkcommand false (PutNodes (Some 10) PUTNODES_APP))
             (result_of_slot bad) (cursor_of_slot bad) in
  ret_of o = true /\ positioned (cur_of o) = false /\
  completions (effects_of o) = [Completion API_EINTERNAL] /\
  ret_of (procresult false (fun _ => true) cl0 (mkcommand false DelNode)
            (result_of_slot bad) (cursor_of_slot bad)) = false.
Proof. repeat split; reflexivity. Qed.

(** ** Cancellation *)


(** A slot of the shape these commands expect: a bare code, or an object of
    keyed, skippable members whose ["ip"] values are IP arrays. *)
Definition url_member_ok (kv : member) : Prop :=
  fst kv <> EOO /\ wellformed (snd kv) = true /\
  (fst kv = NAME_ip -> loadIpsFromJson (snd kv) = None).



(** ** Facts shared by several commands *)

Lemma storeobject_wf (v : jval) : wellformed v = true -> storeobject v = None.
Proof. unfold storeobject. intros H. rewrite H. reflexivity. Qed.

(** A cursor from which HttpReqCommandPutFA reads members to the end of the
    object without meeting a ["p"]. *)
Definition putfa_no_url (c : cursor) : Prop :=
  pending c = None /\ Forall (fun kv => fst kv <> ch_p /\ url_member_ok kv) (rest c).

Lemma putfa_loop_no_url (fuel : nat) :
  forall c acc, putfa_no_url c -> putfa_loop fuel None c acc = None.
Proof.
  induction fuel as [|f IH]; intros [pv ms] acc [Hp H]; [reflexivity|].
  simpl in Hp, H. subst pv.
  destruct ms as [|[k v] ms].
  - simpl. apply IH. split; [reflexivity | constructor].
  - inversion H as [|? ? [Hp [Hk [Hw Hip]]] Hms]; subst. simpl in Hp, Hk, Hw, Hip.
    cbn [putfa_loop getnameid next_value pending rest].
    rewrite (proj2 (Z.eqb_neq _ _) Hp).
    destruct (Z.eqb k NAME_ip) eqn:Eip.
    + apply Z.eqb_eq in Eip. rewrite (Hip Eip). apply IH. split; [reflexivity | exact Hms].
    + rewrite (proj2 (Z.eqb_neq _ _) Hk), (storeobject_wf v Hw).
      apply IH. split; [reflexivity | exact Hms].
Qed.

Lemma putfa_loop_urls (ms : list member) :
  forall fuel p acc,
  Forall url_member_ok ms ->
  (p <> None \/ Exists (fun kv => fst kv = ch_p) ms) ->
  (List.length ms < fuel)%nat ->
  putfa_loop fuel p (mkcursor None ms) acc =
  Some (true, mkcursor None [], acc ++ [CacheResolvedUrls; Completion API_OK]).
Proof.
  induction ms as [|[k v] ms IH]; intros fuel p acc Hok Hp Hf;
    (destruct fuel as [|f]; [simpl in Hf; lia|]); cbn [putfa_loop getnameid next_value pending rest].
  - destruct Hp as [Hp|Hp]; [|inversion Hp].
    destruct p; [reflexivity | contradiction].
  - inversion Hok as [|? ? [Hk [Hw Hip]] Hok']; subst. simpl in Hk, Hw, Hip.
    simpl in Hf.
    destruct (Z.eqb k ch_p) eqn:Ep.
    + rewrite Hw. apply IH; [exact Hok' | left; discriminate | lia].
    + assert (Hp' : p <> None \/ Exists (fun kv => fst kv = ch_p) ms).
      { destruct Hp as [Hp|Hp]; [left; exact Hp|].
        inversion Hp as [? ? Hh|? ? Ht]; subst; [|right; exact Ht].
        simpl in Hh. subst k. rewrite Z.eqb_refl in Ep. discriminate. }
      destruct (Z.eqb k NAME_ip) eqn:Eip.
      * apply Z.eqb_eq in Eip. rewrite (Hip Eip). apply IH; [exact Hok' | exact Hp' | lia].
      * apply Z.eqb_neq in Hk. rewrite Hk. unfold storeobject. rewrite Hw.
        apply IH; [exact Hok' | exact Hp' | lia].
Qed.

Lemma directread_case_shape (canceled : bool) (s : directread_state) (k : nameid) (v : jval) :
  match directread_case canceled s k v with
  | Next s' _ => isSome (dr_drn s') = isSome (dr_drn s) /\ dr_fin s' = None
  | Stop s' _ =>
      isSome (dr_drn s') = isSome (dr_drn s) /\
      dr_fin s' = Some (false, if negb canceled && isSome (dr_drn s)
                               then [DrnCmdResult (dr_err s) None] else [])
  end.
Proof.
  destruct s as [[[[e tl] tus] drn] fin]. unfold directread_case.
  destruct (Z.eqb k ch_g).
  - destruct (match v with
              | JArr l => let '(a, b) := store_all l in
                          (tus ++ a, match b with [] => None | _ => Some (JArr b) end)
              | _ => match storeobject v with
                     | None => (tus ++ [v], None) | Some pv => (tus, Some pv) end
              end) as [tus' lft].
    destruct (Nat.eqb _ 1 || Nat.eqb _ RAIDPARTS); [destruct drn|]; simpl; auto.
  - destruct (Z.eqb k ch_s); [destruct drn; [destruct (getint v)|]; simpl; auto|].
    destruct (Z.eqb k ch_d); [simpl; auto|].
    destruct (Z.eqb k ch_e); [destruct (getint v); simpl; auto|].
    destruct (Z.eqb k NAME_tl); [destruct (getint v); simpl; auto|].
    destruct (storeobject v); simpl; auto.
Qed.

Lemma store_all_wellformed (l : list jval) :
  forallb wellformed l = true -> store_all l = (l, []).
Proof.
  induction l as [|x l IH]; simpl; [reflexivity|].
  intros H. apply andb_true_iff in H. destruct H as [Hx Hl].
  rewrite Hx, (IH Hl). reflexivity.
Qed.

(** CommandDirectRead makes no call into the read node when it was canceled
    or the node is gone. *)
Lemma directread_no_calls (default_backoff : Z) (canceled : bool)
    (drn0 : option drnode) (r : Result) (c : cursor) :
  canceled = true \/ drn0 = None ->
  let '(_, _, _, effs) :=
    CommandDirectRead_procresult default_backoff canceled drn0 r c in
  effs = [].
Proof.
  intros Hq.
  assert (Hf : negb canceled && isSome (option_map drn_clear_pending drn0) = false).
  { destruct Hq as [H|H]; subst; [reflexivity|]. apply andb_false_r. }
  unfold CommandDirectRead_procresult.
  destruct (wasErrorOrOK r); [rewrite Hf; reflexivity|].
  set (d := option_map drn_clear_pending drn0) in *.
  pose proof (run_obj_inv (directread_case canceled)
                (directread_eoo default_backoff canceled)
                (fun s => isSome (dr_drn s) = isSome d /\
                          forall b l, dr_fin s = Some (b, l) -> l = [])) as Hinv.
  destruct (run_obj (directread_case canceled) (directread_eoo default_backoff canceled)
                    (API_EINTERNAL, 0, [], d, None) c) as [[[[[e tl] tus] drn'] fin] c'] eqn:E.
  assert (Hfin : forall b l, fin = Some (b, l) -> l = []).
  { refine (proj2 (_ : isSome drn' = isSome d /\ forall b l, fin = Some (b, l) -> l = [])).
    change (isSome (dr_drn (e, tl, tus, drn', fin)) = isSome d /\
            forall b l, dr_fin (e, tl, tus, drn', fin) = Some (b, l) -> l = []).
    replace (e, tl, tus, drn', fin) with
      (fst (run_obj (directread_case canceled) (directread_eoo default_backoff canceled)
                    (API_EINTERNAL, 0, [], d, None) c)) by (rewrite E; reflexivity).
    apply Hinv.
    - intros s k v s' l [H1 H2] Hc. pose proof (directread_case_shape canceled s k v) as Hs.
      rewrite Hc in Hs. destruct Hs as [Hs1 Hs2]. split; [congruence|].
      rewrite Hs2. discriminate.
    - intros s k v s' l [H1 H2] Hc. pose proof (directread_case_shape canceled s k v) as Hs.
      rewrite Hc in Hs. destruct Hs as [Hs1 Hs2]. split; [congruence|].
      rewrite Hs2, H1, Hf. intros b l' Heq. inversion Heq. reflexivity.
    - intros [[[[e0 tl0] tus0] drn0'] fin0] [H1 H2]. simpl in H1 |- *.
      rewrite H1, Hf. split; [exact H1|]. intros b l' Heq. inversion Heq. reflexivity.
    - split; [reflexivity|]. intros b l Heq. discriminate. }
  destruct fin as [[b effs]|]; [exact (Hfin b effs eq_refl) | reflexivity].
Qed.










(** ** Completions per reply slot *)
















(** ** Channels of CommandGetFA *)

Lemma map_find_set_same {V : Type} (m : list (Z * V)) (k : Z) (v : V) :
  map_find (map_set m k v) k = Some v.
Proof.
  unfold map_find. induction m as [|[k' v'] t IH]; simpl.
  - rewrite Z.eqb_refl. reflexivity.
  - destruct (Z.ltb k k'); [simpl; rewrite Z.eqb_refl; reflexivity|].
    destruct (Z.eqb k k') eqn:E; simpl; [rewrite Z.eqb_refl; reflexivity|].
    rewrite Z.eqb_sym, E. exact IH.
Qed.

Lemma map_find_set_other {V : Type} (m : list (Z * V)) (k k2 : Z) (v : V) :
  k <> k2 -> map_find (map_set m k v) k2 = map_find m k2.
Proof.
  intros Hne. apply Z.eqb_neq in Hne. unfold map_find.
  induction m as [|[k' v'] t IH]; simpl.
  - rewrite Hne. reflexivity.
  - destruct (Z.ltb k k'); [simpl; rewrite Hne; reflexivity|].
    destruct (Z.eqb k k') eqn:E; simpl.
    + apply Z.eqb_eq in E. subst k'. rewrite Hne. reflexivity.
    + destruct (Z.eqb k' k2); [reflexivity | exact IH].
Qed.

Lemma map_find_not_key {V : Type} (m : list (Z * V)) (k : Z) :
  ~ In k (map fst m) -> map_find m k = None.
Proof.
  unfold map_find. induction m as [|[k' v'] t IH]; simpl; intros H; [reflexivity|].
  destruct (Z.eqb k' k) eqn:E; [apply Z.eqb_eq in E; exfalso; auto|].
  apply IH. auto.
Qed.

Lemma move_fresh_find (fresh : list (handle * Z)) :
  NoDup (map fst fresh) ->
  forall pend h,
  map_find (move_fresh fresh pend) h =
  match map_find fresh h with Some x => Some x | None => map_find pend h end.
Proof.
  unfold move_fresh. induction fresh as [|[k v] fr IH]; intros Hnd pend h; [reflexivity|].
  simpl in Hnd |- *. inversion Hnd as [|? ? Hk Hnd']; subst.
  rewrite (IH Hnd').
  assert (Hc : map_find ((k, v) :: fr) h = if Z.eqb k h then Some v else map_find fr h)
    by (unfold map_find; simpl; destruct (Z.eqb k h); reflexivity).
  rewrite Hc. destruct (Z.eqb_spec k h) as [Heq|Hne].
  - subst h. rewrite (map_find_not_key fr k Hk). apply map_find_set_same.
  - destruct (map_find fr h); [reflexivity|].
    apply map_find_set_other. exact Hne.
Qed.

Lemma requeue_requeued (fafcs : list (Z * fafc)) (part : Z) (f : fafc) (e : error) :
  NoDup (map fst (fafs_fresh f)) ->
  requeued (map_set fafcs part (fafc_requeue f e)) part f e.
Proof.
  intros Hnd. exists (fafc_requeue f e). rewrite map_find_set_same.
  repeat split. intros h. apply move_fresh_find. exact Hnd.
Qed.

(** ** Bare error codes *)







(** ** Incomplete and unparseable slots *)








(** ** Phone numbers and verification codes *)

Lemma get_some_lt (s : string) (i : nat) (c : ascii) :
  String.get i s = Some c -> (i < String.length s)%nat.
Proof.
  revert i. induction s as [|a s IH]; intros i H; [discriminate|].
  destruct i as [|i]; simpl in *; [lia|]. apply IH in H. lia.
Qed.

Lemma get_lt_some (s : string) (i : nat) :
  (i < String.length s)%nat -> exists c, String.get i s = Some c.
Proof.
  revert i. induction s as [|a s IH]; intros i H; simpl in H; [lia|].
  destruct i as [|i]; simpl; [eauto|]. apply IH. lia.
Qed.

Lemma phone_scan_spec (s : string) (n : nat) :
  (n <= String.length s)%nat ->
  (phone_scan s n = true <->
   forall i c, (i < n)%nat -> String.get i s = Some c ->
               isdigit c = true \/ (i = O /\ c = "+"%char)).
Proof.
  induction n as [|n IH]; intros Hn.
  - split; [intros _ i c Hi; lia | reflexivity].
  - destruct (get_lt_some s n) as [ch Hch]; [lia|].
    simpl. rewrite Hch.
    destruct (isdigit ch || (Nat.eqb n 0 && Ascii.eqb ch "+"%char)) eqn:E.
    + rewrite IH by lia. split.
      * intros H i c Hi Hg. destruct (Nat.eq_dec i n) as [->|Hne].
        -- rewrite Hch in Hg. inversion Hg; subst c.
           apply orb_true_iff in E. destruct E as [E|E]; [left; exact E|right].
           apply andb_true_iff in E. destruct E as [E1 E2].
           apply Nat.eqb_eq in E1. apply Ascii.eqb_eq in E2. split; assumption.
        -- apply H; [lia|exact Hg].
      * intros H i c Hi Hg. apply H; [lia|exact Hg].
    + split; [discriminate|]. intros H. exfalso.
      destruct (H n ch (Nat.lt_succ_diag_r n) Hch) as [Hd|[H1 H2]].
      * rewrite Hd in E. discriminate.
      * subst n ch. discriminate.
Qed.

Lemma isPhoneNumber_iff (s : string) :
  isPhoneNumber s = true <->
  (6 < String.length s)%nat /\
  (forall i c, String.get i s = Some c -> isdigit c = true \/ (i = O /\ c = "+"%char)).
Proof.
  unfold isPhoneNumber. rewrite andb_true_iff, Nat.ltb_lt, (phone_scan_spec s _ (le_n _)).
  split; intros [A B]; split; try assumption.
  - intros i c Hg. apply A; [eapply get_some_lt; eauto | exact Hg].
  - intros i c _ Hg. apply B; exact Hg.
Qed.

Lemma all_digits_iff (s : string) :
  all_digits s = true <-> (forall i c, String.get i s = Some c -> isdigit c = true).
Proof.
  induction s as [|a s IH]; simpl.
  - split; [intros _ i c H; discriminate | reflexivity].
  - destruct (isdigit a) eqn:Ea.
    + rewrite IH. split.
      * intros H [|i] c Hg; simpl in Hg; [inversion Hg; subst; exact Ea | exact (H i c Hg)].
      * intros H i c Hg. exact (H (S i) c Hg).
    + split; [discriminate|]. intros H. rewrite (H O a eq_refl) in Ea. discriminate.
Qed.

(** Extra X1: CommandSMSVerificationSend::isPhoneNumber accepts exactly the
    strings of at least seven characters that are all decimal digits, except
    that the first may be a '+'. *)
Theorem isPhoneNumber_characterised (s : string) :
  isPhoneNumber s = true <->
  (7 <= String.length s)%nat /\
  (forall i c, String.get i s = Some c -> isdigit c = true \/ (i = O /\ c = "+"%char)).
Proof.
  rewrite isPhoneNumber_iff. split; intros [A B]; split; try assumption; lia.
Qed.

Lemma isVerificationCode_iff (s : string) :
  isVerificationCode s = true <->
  String.length s = 6%nat /\ (forall i c, String.get i s = Some c -> isdigit c = true).
Proof.
  unfold isVerificationCode. rewrite andb_true_iff, Nat.eqb_eq, all_digits_iff.
  split; intros [A B]; split; assumption.
Qed.

(** Extra X2: the request CommandSMSVerificationCheck builds carries the code
    in its ["c"] argument exactly when the code is six decimal digits; for
    any other string it is sent with no code at all. *)
Theorem smsverificationcheck_sends_only_valid_codes (s : string) :
  (CommandSMSVerificationCheck_args s = [("c"%string, s)] <->
   String.length s = 6%nat /\ (forall i c, String.get i s = Some c -> isdigit c = true)) /\
  (CommandSMSVerificationCheck_args s = [] <->
   ~ (String.length s = 6%nat /\ (forall i c, String.get i s = Some c -> isdigit c = true))).
Proof.
  rewrite <- isVerificationCode_iff. unfold CommandSMSVerificationCheck_args.
  destruct (isVerificationCode s); split; split; intros H; try reflexivity; try discriminate.
  - exfalso. apply H. reflexivity.
Qed.

(** Extra X3: a verification code is never taken for a phone number, while a
    '+' followed by a verification code is one. *)
Theorem verification_code_not_phone (s : string) :
  isVerificationCode s = true ->
  isPhoneNumber s = false /\ isPhoneNumber (String "+"%char s) = true.
Proof.
  unfold isVerificationCode. intros H. apply andb_true_iff in H. destruct H as [Hd Hl].
  apply Nat.eqb_eq in Hl. split.
  - unfold isPhoneNumber. rewrite Hl. apply andb_false_r.
  - apply isPhoneNumber_iff. split; [simpl; lia|].
    intros [|i] c Hg; simpl in Hg.
    + inversion Hg. right. split; reflexivity.
    + left. apply (proj1 (all_digits_iff s) Hd i c Hg).
Qed.

Lemma verification_code_not_phone_witness :
  isVerificationCode "123456" = true /\
  isPhoneNumber "123456" = false /\ isPhoneNumber (String "+"%char "123456") = true.
Proof.
  split; [reflexivity|]. apply verification_code_not_phone. reflexivity.
Defined.

(** ** CommandDirectRead *)

(** Extra X4: CommandDirectRead::procresult makes no call into the read node
    when the command was canceled or the node is gone (as after
    [CommandDirectRead::cancel]), whatever the reply. *)
Theorem directread_silent_when_canceled_or_detached (default_backoff : Z)
    (canceled : bool) (drn0 : option drnode) (r : Result) (c : cursor) :
  canceled = true \/ drn0 = None ->
  let '(_, _, _, effs) :=
    CommandDirectRead_procresult default_backoff canceled drn0 r c in
  effs = [].
Proof. exact (directread_no_calls default_backoff canceled drn0 r c). Qed.

Lemma directread_silent_when_canceled_or_detached_witness :
  let '(_, _, _, effs) :=
    CommandDirectRead_procresult 30 true (Some (mkdrnode true [] 0)) CmdObject
      (mkcursor None [(ch_e, JNum API_EOVERQUOTA)]) in
  effs = [].
Proof.
  exact (directread_silent_when_canceled_or_detached 30 true (Some (mkdrnode true [] 0))
           CmdObject (mkcursor None [(ch_e, JNum API_EOVERQUOTA)]) (or_introl eq_refl)).
Defined.

(** Extra X5: a ['g'] array of URLs is accepted when it holds one URL (a plain
    download) or [RAIDPARTS] URLs (a RAID download): the node receives them
    and the read is told API_OK.  Any other count is reported as
    API_EINCOMPLETE and the node's URLs are left as they were.  In both
    cases the node's [pendingcmd] is cleared. *)
Theorem directread_url_count (default_backoff : Z) (d : drnode) (l : list jval) :
  forallb wellformed l = true ->
  CommandDirectRead_procresult default_backoff false (Some d) CmdObject
    (mkcursor None [(ch_g, JArr l)]) =
  if Nat.eqb (List.length l) 1 || Nat.eqb (List.length l) RAIDPARTS
  then (true, mkcursor None [], Some (mkdrnode false l (drn_size d)),
        [DrnCmdResult API_OK (Some 0)])
  else (true, mkcursor None [], Some (drn_clear_pending d),
        [DrnCmdResult API_EINCOMPLETE (Some 0)]).
Proof.
  intros Hwf. unfold CommandDirectRead_procresult, run_obj. simpl.
  unfold directread_case. simpl. rewrite (store_all_wellformed l Hwf). simpl.
  destruct (Nat.eqb (List.length l) 1 || Nat.eqb (List.length l) RAIDPARTS); reflexivity.
Qed.

Lemma directread_url_count_witness :
  forallb wellformed [JStr "u1"; JStr "u2"; JStr "u3"; JStr "u4"; JStr "u5"; JStr "u6"] = true /\
  CommandDirectRead_procresult 30 false (Some (mkdrnode true [] 0)) CmdObject
    (mkcursor None [(ch_g, JArr [JStr "u1"; JStr "u2"; JStr "u3"; JStr "u4"; JStr "u5"; JStr "u6"])])
  = (true, mkcursor None [],
     Some (mkdrnode false [JStr "u1"; JStr "u2"; JStr "u3"; JStr "u4"; JStr "u5"; JStr "u6"] 0),
     [DrnCmdResult API_OK (Some 0)]).
Proof.
  split; [reflexivity|].
  exact (directread_url_count 30 (mkdrnode true [] 0)
           [JStr "u1"; JStr "u2"; JStr "u3"; JStr "u4"; JStr "u5"; JStr "u6"] eq_refl).
Defined.

(** Extra X6: an over-quota reply is passed to the read with a retry time of
    ten times the ["tl"] value, or of ten times the default back-off when
    ["tl"] is zero or absent; ["tl"] is taken modulo 2^32 (a [dstime]) and
    the product is computed modulo 2^32, so a ["tl"] of 2^32 counts as
    zero. *)
Theorem directread_overquota_retry (default_backoff : Z) (d : drnode) (t : Z) :
  CommandDirectRead_procresult default_backoff false (Some d) CmdObject
    (mkcursor None [(ch_e, JNum API_EOVERQUOTA); (NAME_tl, JNum t)]) =
  (true, mkcursor None [], Some (drn_clear_pending d),
   [DrnCmdResult API_EOVERQUOTA
      (Some (to_uint32 ((if Z.eqb (to_uint32 t) 0 then to_uint32 default_backoff
                         else to_uint32 t) * 10)))]) /\
  CommandDirectRead_procresult default_backoff false (Some d) CmdObject
    (mkcursor None [(ch_e, JNum API_EOVERQUOTA)]) =
  (true, mkcursor None [], Some (drn_clear_pending d),
   [DrnCmdResult API_EOVERQUOTA (Some (to_uint32 (to_uint32 default_backoff * 10)))]).
Proof.
  split; unfold CommandDirectRead_procresult, run_obj; simpl;
    unfold directread_case, directread_eoo; simpl; [|reflexivity].
  destruct (Z.eqb (to_uint32 t) 0); reflexivity.
Qed.

(** ** HttpReqCommandPutFA, object replies *)

(** Extra X7: an object reply to the file-attribute upload request with no
    ["p"] member, whose members all have a key and a value that is read or
    skipped (an ["ip"] value being an array of IP arrays), never makes
    HttpReqCommandPutFA::procresult return: at the end of the object it
    sets [status] and goes round the loop again, for ever. *)
Theorem putfa_object_without_url_never_returns (ms : list member) (fuel : nat) :
  Forall (fun kv => fst kv <> ch_p /\ url_member_ok kv) ms ->
  HttpReqCommandPutFA_procresult_object fuel (mkcursor None ms) = None.
Proof.
  intros H. apply putfa_loop_no_url. split; [reflexivity | exact H].
Qed.

Lemma putfa_object_without_url_never_returns_witness :
  Forall (fun kv => fst kv <> ch_p /\ url_member_ok kv)
         [(NAME_ip, JArr [JArr [JStr "1.2.3.4"]])] /\
  HttpReqCommandPutFA_procresult_object 1000 (mkcursor None [(NAME_ip, JArr [JArr [JStr "1.2.3.4"]])])
  = None.
Proof.
  assert (H : Forall (fun kv => fst kv <> ch_p /\ url_member_ok kv)
                     [(NAME_ip, JArr [JArr [JStr "1.2.3.4"]])]).
  { constructor; [|constructor].
    split; [discriminate|]. split; [discriminate|]. split; [reflexivity|]. intros _. reflexivity. }
  split; [exact H | exact (putfa_object_without_url_never_returns _ 1000 H)].
Defined.

(** Extra X8: an object reply whose members can all be read and which holds a
    ["p"] member is consumed to its end; HttpReqCommandPutFA::procresult
    then caches the resolved URLs, calls its completion with API_OK and
    returns true. *)
Theorem putfa_object_with_url (ms : list member) (fuel : nat) :
  Forall url_member_ok ms ->
  Exists (fun kv => fst kv = ch_p) ms ->
  (List.length ms < fuel)%nat ->
  HttpReqCommandPutFA_procresult_object fuel (mkcursor None ms) =
  Some (true, mkcursor None [], [CacheResolvedUrls; Completion API_OK]).
Proof.
  intros Hok Hp Hf. apply (putfa_loop_urls ms fuel None []); [exact Hok | right; exact Hp | exact Hf].
Qed.

Lemma putfa_object_with_url_witness :
  HttpReqCommandPutFA_procresult_object 3
    (mkcursor None [(ch_p, JStr "https://x"); (NAME_ip, JArr [JArr [JStr "1.2.3.4"]])]) =
  Some (true, mkcursor None [], [CacheResolvedUrls; Completion API_OK]).
Proof.
  apply putfa_object_with_url.
  - repeat constructor; simpl; try discriminate; reflexivity.
  - left. reflexivity.
  - simpl. lia.
Defined.

(** ** CommandGetFA *)

(** Extra X9: on a bare-code reply, CommandGetFA::procresult puts every fresh
    fetch of its channel back among the pending ones (a fresh fetch replaces
    a pending one for the same node, other pending fetches are kept), empties
    the fresh ones, records the code as the channel's error, marks the
    request failed and returns true. *)
Theorem getfa_code_requeues (fafcs : list (Z * fafc)) (part : Z) (f : fafc) (e : error)
    (c : cursor) :
  map_find fafcs part = Some f ->
  NoDup (map fst (fafs_fresh f)) ->
  let '(b, c', fafcs', effs) := CommandGetFA_procresult fafcs part (CmdError e) c in
  b = true /\ c' = c /\ effs = [] /\ requeued fafcs' part f e.
Proof.
  intros Hf Hnd. unfold CommandGetFA_procresult. simpl. rewrite Hf.
  repeat split. apply requeue_requeued. exact Hnd.
Qed.

Lemma getfa_code_requeues_witness :
  map_find [(7, fafc_sample)] 7 = Some fafc_sample /\ NoDup (map fst (fafs_fresh fafc_sample)) /\
  let '(b, c', fafcs', effs) :=
    CommandGetFA_procresult [(7, fafc_sample)] 7 (CmdError API_EAGAIN) (mkcursor None []) in
  b = true /\ c' = mkcursor None [] /\ effs = [] /\ requeued fafcs' 7 fafc_sample API_EAGAIN.
Proof.
  assert (Hnd : NoDup (map fst (fafs_fresh fafc_sample))).
  { simpl. constructor; [simpl; lia | constructor; [simpl; tauto | constructor]]. }
  split; [reflexivity|]. split; [exact Hnd|].
  exact (getfa_code_requeues [(7, fafc_sample)] 7 fafc_sample API_EAGAIN (mkcursor None [])
           eq_refl Hnd).
Defined.

(** Extra X10: an object reply without a ["p"] member whose members can all be
    read is consumed to its end and handled like a failed request: the
    channel's fresh fetches are put back among the pending ones with error
    API_EINTERNAL, and the body returns true. *)
Theorem getfa_object_without_url_requeues (fafcs : list (Z * fafc)) (part : Z) (f : fafc)
    (ms : list member) :
  map_find fafcs part = Some f ->
  NoDup (map fst (fafs_fresh f)) ->
  Forall (fun kv => fst kv <> EOO /\ fst kv <> ch_p /\ wellformed (snd kv) = true) ms ->
  let '(b, c', fafcs', effs) :=
    CommandGetFA_procresult fafcs part CmdObject (mkcursor None ms) in
  b = true /\ c' = mkcursor None [] /\ effs = [] /\ requeued fafcs' part f API_EINTERNAL.
Proof.
  intros Hf Hnd Hms. unfold CommandGetFA_procresult, run_obj. simpl.
  assert (Hloop : obj_loop (getfa_case fafcs part) (getfa_eoo fafcs part) (None, None) None ms
                  = (getfa_eoo fafcs part (None, None), mkcursor None [])).
  { induction ms as [|[k v] ms IH]; [reflexivity|].
    inversion Hms as [|? ? [Hk [Hp Hw]] Hms']; subst. simpl in Hk, Hp, Hw.
    simpl. apply Z.eqb_neq in Hk. apply Z.eqb_neq in Hp. rewrite Hk.
    unfold getfa_case at 1. rewrite Hp. unfold storeobject. rewrite Hw. exact (IH Hms'). }
  rewrite Hloop. unfold getfa_eoo. rewrite Hf.
  repeat split. apply requeue_requeued. exact Hnd.
Qed.

Lemma getfa_object_without_url_requeues_witness :
  map_find [(7, fafc_sample)] 7 = Some fafc_sample /\ NoDup (map fst (fafs_fresh fafc_sample)) /\
  Forall (fun kv => fst kv <> EOO /\ fst kv <> ch_p /\ wellformed (snd kv) = true)
         [(ch_s, JNum 5)] /\
  let '(b, c', fafcs', effs) :=
    CommandGetFA_procresult [(7, fafc_sample)] 7 CmdObject (mkcursor None [(ch_s, JNum 5)]) in
  b = true /\ c' = mkcursor None [] /\ effs = [] /\ requeued fafcs' 7 fafc_sample API_EINTERNAL.
Proof.
  assert (Hnd : NoDup (map fst (fafs_fresh fafc_sample))).
  { simpl. constructor; [simpl; lia | constructor; [simpl; tauto | constructor]]. }
  assert (Hms : Forall (fun kv => fst kv <> EOO /\ fst kv <> ch_p /\ wellformed (snd kv) = true)
                       [(ch_s, JNum 5)]).
  { constructor; [|constructor]. simpl. split; [discriminate | split; [discriminate | reflexivity]]. }
  split; [reflexivity|]. split; [exact Hnd|]. split; [exact Hms|].
  exact (getfa_object_without_url_requeues [(7, fafc_sample)] 7 fafc_sample [(ch_s, JNum 5)]
           eq_refl Hnd Hms).
Defined.

(** Extra X11: unlike its end-of-object branch, the branch of
    CommandGetFA::procresult for a member it cannot skip does not check that
    the channel exists: when [client->fafcs] has no channel [part], it
    dereferences the [end()] iterator, then returns false. *)
Theorem getfa_unreadable_member_without_channel (fafcs : list (Z * fafc)) (part : Z)
    (k : nameid) (v : jval) (ms : list member) :
  map_find fafcs part = None ->
  k <> EOO -> k <> ch_p -> wellformed v = false ->
  CommandGetFA_procresult fafcs part CmdObject (mkcursor None ((k, v) :: ms)) =
  (false, mkcursor (Some v) ms, fafcs, [FafcEndDeref]).
Proof.
  intros Hf Hk Hp Hw. apply Z.eqb_neq in Hk. apply Z.eqb_neq in Hp.
  unfold CommandGetFA_procresult, run_obj. simpl. rewrite Hk.
  unfold getfa_case. rewrite Hp. unfold storeobject. rewrite Hw, Hf. reflexivity.
Qed.

Lemma getfa_unreadable_member_without_channel_witness :
  CommandGetFA_procresult [] 7 CmdObject (mkcursor None [(ch_s, JBad)]) =
  (false, mkcursor (Some JBad) [], [], [FafcEndDeref]).
Proof.
  apply getfa_unreadable_member_without_channel; [reflexivity | discriminate | discriminate | reflexivity].
Defined.

(** ** CommandGetVersion *)

(** The value of the last member with key [k] that is a number (a string),
    or [d] when there is none. *)
Definition last_number (k : nameid) (ms : list member) (d : Z) : Z :=
  fold_left (fun acc kv => if Z.eqb (fst kv) k
                           then match snd kv with JNum z => z | _ => acc end
                           else acc) ms d.
Definition last_string (k : nameid) (ms : list member) (d : string) : string :=
  fold_left (fun acc kv => if Z.eqb (fst kv) k
                           then match snd kv with JStr t => t | _ => acc end
                           else acc) ms d.

Definition getversion_member_ok (kv : member) : Prop :=
  fst kv <> EOO /\ wellformed (snd kv) = true /\
  (fst kv = ch_c -> exists z, snd kv = JNum z) /\
  (fst kv = ch_s -> exists t, snd kv = JStr t).

Lemma to_int32_idem (z : Z) : to_int32 (to_int32 z) = to_int32 z.
Proof.
  unfold to_int32. f_equal. rewrite Z.sub_add. apply Z.mod_mod. lia.
Qed.

Lemma last_number_int32 (k : nameid) (ms : list member) :
  forall a b, to_int32 a = to_int32 b ->
  to_int32 (last_number k ms a) = to_int32 (last_number k ms b).
Proof.
  unfold last_number. induction ms as [|[k' v] ms IH]; intros a b H; simpl; [exact H|].
  apply IH. destruct (Z.eqb k' k); [destruct v|]; auto.
Qed.

Lemma getversion_loop (ms : list member) :
  Forall getversion_member_ok ms ->
  forall code str fin, to_int32 code = code ->
  obj_loop getversion_case getversion_eoo (code, str, fin) None ms =
  (getversion_eoo (to_int32 (last_number ch_c ms code), last_string ch_s ms str, None),
   mkcursor None []).
Proof.
  induction ms as [|[k v] ms IH]; intros Hok code str fin Hc0.
  - simpl. rewrite Hc0. reflexivity.
  - inversion Hok as [|? ? [Hk [Hw [Hc Hs]]] Hok']; subst. simpl in Hk, Hw, Hc, Hs.
    simpl. apply Z.eqb_neq in Hk. rewrite Hk. unfold getversion_case at 1.
    destruct (Z.eqb_spec k ch_c) as [Ec|Ec].
    + destruct (Hc Ec) as [z ->]. subst k. simpl. rewrite IH by (exact Hok' || apply to_int32_idem).
      unfold last_number. simpl.
      fold (last_number ch_c ms z). fold (last_number ch_c ms (to_int32 z)).
      rewrite (last_number_int32 ch_c ms (to_int32 z) z (to_int32_idem z)). reflexivity.
    + destruct (Z.eqb_spec k ch_s) as [Es|Es].
      * destruct (Hs Es) as [t ->]. subst k. simpl. rewrite IH by assumption. reflexivity.
      * unfold storeobject. rewrite Hw. rewrite IH by assumption.
        unfold last_number, last_string. simpl.
        reflexivity.
Qed.

(** Extra X12: an object reply to CommandGetVersion whose ["c"] members are
    numbers, whose ["s"] members are strings and whose other members can be
    skipped is consumed to its end and reported with API_OK, the version code
    of the last ["c"] converted to an [int] (0 without one) and the string of
    the last ["s"] (empty without one). *)
Theorem getversion_object_reply (ms : list member) :
  Forall getversion_member_ok ms ->
  CommandGetVersion_procresult CmdObject (mkcursor None ms) =
  (true, mkcursor None [],
   [GetVersionResult (to_int32 (last_number ch_c ms 0)) (Some (last_string ch_s ms ""))
      API_OK]).
Proof.
  intros Hok. unfold CommandGetVersion_procresult, run_obj. simpl.
  rewrite (getversion_loop ms Hok) by reflexivity. reflexivity.
Qed.

Lemma getversion_object_reply_witness :
  CommandGetVersion_procresult CmdObject
    (mkcursor None [(ch_s, JStr "1.0"); (ch_c, JNum 7); (ch_p, JArr [JNum 1]);
                    (ch_c, JNum 4294967304)]) =
  (true, mkcursor None [],
   [GetVersionResult
      (to_int32 (last_number ch_c [(ch_s, JStr "1.0"); (ch_c, JNum 7); (ch_p, JArr [JNum 1]);
                                   (ch_c, JNum 4294967304)] 0))
      (Some (last_string ch_s [(ch_s, JStr "1.0"); (ch_c, JNum 7); (ch_p, JArr [JNum 1]);
                               (ch_c, JNum 4294967304)] "")) API_OK]) /\
  to_int32 4294967304 = 8.
Proof.
  split; [|reflexivity].
  apply (getversion_object_reply
           [(ch_s, JStr "1.0"); (ch_c, JNum 7); (ch_p, JArr [JNum 1]); (ch_c, JNum 4294967304)]).
  repeat constructor; try discriminate; intros H; try discriminate; eexists; reflexivity.
Defined.

(** ** CommandRemoveSet *)

(** Extra X13: CommandRemoveSet::procresult, on a reply that is not a bare code,
    never asks the client to delete the set yet calls its completion with
    API_OK, and returns false.  On a bare code it returns true; on API_OK it
    deletes the set and reports API_ENOENT when the client did not know it;
    any other code is passed on. *)
Theorem removeset_outcomes (mSetId : handle) (deleted : bool) (r : Result) :
  CommandRemoveSet_procresult mSetId true deleted r =
  match r with
  | CmdError e =>
      (true, if Z.eqb e API_OK
             then [DeleteSet mSetId; SECompletion (if deleted then API_OK else API_ENOENT)]
             else [SECompletion e])
  | _ => (false, [SECompletion API_OK])
  end.
Proof.
  destruct r as [e| | |]; try reflexivity.
  unfold CommandRemoveSet_procresult, CommandSE_procerrorcode. simpl.
  destruct (Z.eqb_spec e API_OK) as [->|]; [destruct deleted|]; reflexivity.
Qed.
